(** * zq: the zng type registry, the type parser and the field-path evaluator

    A shallow embedding of [zng/type.go] and [expr/fieldexpr.go].

    - Go strings are byte strings: [string] (a list of 8-bit [ascii]).
    - A [Type] interface value is a pointer to an immutable type object.  It is
      modelled by the kind of the object, the address it lives at and its
      (immutable) contents; interning is visible because two objects with
      equal contents may live at different addresses.
    - The package-level [typeMap] is threaded explicitly, together with the
      allocator that hands out the addresses of new type objects.
    - The mutex only serialises access; the model is sequential. *)

From Stdlib Require Import ZArith NArith List Ascii String Strings.Byte Lia Bool.
From stdpp Require Import base gmap strings list fin_maps.

#[local] Set Warnings "-register-all".

(** ** Go byte strings *)

Module GoStrings.

Definition geb (c d : ascii) : bool := (N_of_ascii d <=? N_of_ascii c)%N.
Definition leb (c d : ascii) : bool := (N_of_ascii c <=? N_of_ascii d)%N.

(** [s[off:]] and [s[:off]] for [off <= len(s)]. *)
Fixpoint sliceFrom (off : nat) (s : string) : string :=
  match off, s with
  | O, _ => s
  | S n, String _ s' => sliceFrom n s'
  | S _, EmptyString => EmptyString
  end.

Fixpoint sliceTo (off : nat) (s : string) : string :=
  match off, s with
  | O, _ => EmptyString
  | S n, String c s' => String c (sliceTo n s')
  | S _, EmptyString => EmptyString
  end.

Fixpoint rev (s : string) : string :=
  match s with
  | EmptyString => EmptyString
  | String c s' => rev s' +:+ String c EmptyString
  end.

Definition bytes (l : list nat) : string :=
  string_of_list_ascii (map ascii_of_nat l).

(** The UTF-8 encodings of the code points [unicode.IsSpace] accepts:
    tab, LF, VT, FF, CR, space, U+0085, U+00A0, U+1680, U+2000..U+200A,
    U+2028, U+2029, U+202F, U+205F, U+3000. *)
Definition spaces : list string :=
  map bytes
    [ [9]; [10]; [11]; [12]; [13]; [32]; [194; 133]; [194; 160];
      [225; 154; 128];
      [226; 128; 128]; [226; 128; 129]; [226; 128; 130]; [226; 128; 131];
      [226; 128; 132]; [226; 128; 133]; [226; 128; 134]; [226; 128; 135];
      [226; 128; 136]; [226; 128; 137]; [226; 128; 138];
      [226; 128; 168]; [226; 128; 169]; [226; 128; 175];
      [226; 129; 159]; [227; 128; 128] ]%nat.

Fixpoint dropPrefix (p s : string) : option string :=
  match p, s with
  | EmptyString, _ => Some s
  | String a p', String b s' => if Ascii.eqb a b then dropPrefix p' s' else None
  | String _ _, EmptyString => None
  end.

Fixpoint dropAny (ps : list string) (s : string) : option string :=
  match ps with
  | [] => None
  | p :: ps' => match dropPrefix p s with
                | Some r => Some r
                | None => dropAny ps' s
                end
  end.

(** Strip leading occurrences of the patterns; every pattern is non-empty,
    so [String.length s] rounds are enough. *)
Fixpoint trimLeading (fuel : nat) (ps : list string) (s : string) : string :=
  match fuel with
  | O => s
  | S f => match dropAny ps s with
           | Some r => trimLeading f ps r
           | None => s
           end
  end.

Definition TrimLeft (s : string) : string :=
  trimLeading (String.length s) spaces s.

Definition TrimRight (s : string) : string :=
  rev (trimLeading (String.length s) (map rev spaces) (rev s)).

(** [strings.TrimSpace]: all leading and trailing white space removed. *)
Definition TrimSpace (s : string) : string := TrimRight (TrimLeft s).

End GoStrings.
Import GoStrings.

(** ** Errors *)

Inductive error : Set :=
| ErrLenUnset                 (* "len(unset) is undefined" *)
| ErrNotContainer             (* "argument to len() is not a container" *)
| ErrNotVector                (* "cannot index a non-vector" *)
| ErrIndex                    (* "vector index out of bounds" *)
| Errorf (msg : string)       (* a value made by fmt.Errorf or errors.New *)
| ErrTruncated                (* iterator: input ended inside an element *)
| ErrMalformed                (* iterator: uvarint overflows 64 bits *)
| ErrInvalidType              (* type grammar: structural rule violated *)
| ErrDuplicateField           (* type grammar: repeated column name *)
| ErrSyntax                   (* strconv.ParseInt: not a number *)
| ErrRange.                   (* strconv.ParseInt: out of the int64 range *)

#[global] Instance error_eq_dec : EqDecision error.
Proof. solve_decision. Defined.

(** ** Types *)

(** The address of a heap-allocated type object. *)
Definition ptr := positive.

Record ColumnOf (T : Type) : Type := MkColumn { Name : string; ColType : T }.
Arguments MkColumn {T} _ _.
Arguments Name {T} _.
Arguments ColType {T} _.

(** A non-nil [Type] interface value.  The thirteen primitives are the
    package-level singletons; a compound type is a pointer [at_] to a
    [TypeSet], [TypeVector] or [TypeRecord] object. *)
Inductive Type_ : Type :=
| TypeBool | TypeCount | TypeInt | TypeDouble | TypeTime | TypeInterval
| TypeString | TypePattern | TypePort | TypeAddr | TypeSubnet | TypeEnum
| TypeUnset
| TypeSet (at_ : ptr) (innerType : Type_)
| TypeVector (at_ : ptr) (typ : Type_)
| TypeRecord (at_ : ptr) (Columns : list (ColumnOf Type_)) (Key : string).

Abbreviation Column := (ColumnOf Type_).

(** What Go's [==] on two [Type] interface values looks at: the dynamic type
    and the pointer. *)
Inductive identity : Set :=
| IdBool | IdCount | IdInt | IdDouble | IdTime | IdInterval | IdString
| IdPattern | IdPort | IdAddr | IdSubnet | IdEnum | IdUnset
| IdSet (p : ptr) | IdVector (p : ptr) | IdRecord (p : ptr).

#[global] Instance identity_eq_dec : EqDecision identity.
Proof. solve_decision. Defined.

Definition identityOf (t : Type_) : identity :=
  match t with
  | TypeBool => IdBool | TypeCount => IdCount | TypeInt => IdInt
  | TypeDouble => IdDouble | TypeTime => IdTime | TypeInterval => IdInterval
  | TypeString => IdString | TypePattern => IdPattern | TypePort => IdPort
  | TypeAddr => IdAddr | TypeSubnet => IdSubnet | TypeEnum => IdEnum
  | TypeUnset => IdUnset
  | TypeSet p _ => IdSet p
  | TypeVector p _ => IdVector p
  | TypeRecord p _ _ => IdRecord p
  end.


(** [InnerType]: [None] is the nil interface. *)
Definition InnerType (typ : option Type_) : option Type_ :=
  match typ with
  | Some (TypeSet _ innerType) => Some innerType
  | Some (TypeVector _ typ') => Some typ'
  | _ => None
  end.

Definition ContainedType (typ : option Type_) : option Type_ * option (list Column) :=
  match typ with
  | Some (TypeSet _ innerType) => (Some innerType, None)
  | Some (TypeVector _ typ') => (Some typ', None)
  | Some (TypeRecord _ Columns _) => (None, Some Columns)
  | _ => (None, None)
  end.


(** ** The registry *)

(** The package state: [typeMap] and the allocator of type objects. *)
Record Registry : Type := MkRegistry {
  typeMap : gmap string Type_;
  nextPtr : ptr
}.

(** [&T{...}]: the address of a fresh object. *)
Definition new (r : Registry) : ptr * Registry :=
  (nextPtr r, MkRegistry (typeMap r) (Pos.succ (nextPtr r))).

Definition typeMap0 : gmap string Type_ :=
  list_to_map
    [ ("bool", TypeBool); ("count", TypeCount); ("int", TypeInt);
      ("double", TypeDouble); ("time", TypeTime); ("interval", TypeInterval);
      ("string", TypeString); ("pattern", TypePattern); ("regexp", TypePattern);
      ("port", TypePort); ("addr", TypeAddr); ("subnet", TypeSubnet);
      ("enum", TypeEnum); ("unset", TypeUnset) ].

Definition registry0 : Registry := MkRegistry typeMap0 1%positive.

(** The result triple [(rest, typ, err)] of the type parsers: on failure the
    code always returns the empty rest, a nil type and [err]. *)
Inductive parsed : Type :=
| Parsed (rest : string) (typ : Type_)
| Failed (err : error).

Definition isIdChar (c : ascii) : bool :=
  (geb c "a" && leb c "z") || (geb c "A" && leb c "Z")
  || (geb c "0" && leb c "9") || Ascii.eqb c "_" || Ascii.eqb c ".".

(** The loop of [parseWord]: the first offset whose byte is not an
    identifier byte. *)
Fixpoint wordEnd (s : string) : nat :=
  match s with
  | EmptyString => O
  | String c s' => if isIdChar c then S (wordEnd s') else O
  end.

(** Returns [(rest, word)]. *)
Definition parseWord (in_ : string) : string * string :=
  let in_ := TrimSpace in_ in
  let off := wordEnd in_ in
  if Nat.eqb off 0 then (EmptyString, EmptyString)
  else (sliceFrom off in_, sliceTo off in_).

Section Registry.

(** The methods and parsers of the compound types live in files of their
    own; the registry code is generic in them. *)
Variable String_ : Type_ -> string.                 (* Type.String() *)
Variable recordString : list Column -> string.
Variable parseSetTypeBody : string -> Registry -> parsed * Registry.
Variable parseVectorTypeBody : string -> Registry -> parsed * Registry.
Variable parseRecordTypeBody : string -> Registry -> parsed * Registry.

Definition addType (t : Type_) (r : Registry) : Type_ * Registry :=
  let key := String_ t in
  match typeMap r !! key with
  | Some old => (old, r)
  | None => (t, MkRegistry (<[key := t]> (typeMap r)) (nextPtr r))
  end.

Definition LookupVectorType (innerType : Type_) (r : Registry) : Type_ * Registry :=
  let '(p, r) := new r in
  addType (TypeVector p innerType) r.

(** The three compound cases share their shape. *)
Definition internBody (body : string -> Registry -> parsed * Registry)
    (rest : string) (r : Registry) : parsed * Registry :=
  match body rest r with
  | (Failed err, r) => (Failed err, r)
  | (Parsed rest t, r) => let '(t, r) := addType t r in (Parsed rest t, r)
  end.

Definition parseType (in_ : string) (r : Registry) : parsed * Registry :=
  match typeMap r !! TrimSpace in_ with
  | Some t => (Parsed EmptyString t, r)
  | None =>
    let '(rest, word) := parseWord in_ in
    if String.eqb word EmptyString
    then (Failed (Errorf ("unknown type: " +:+ in_)), r)
    else
      match typeMap r !! word with
      | Some t => (Parsed rest t, r)
      | None =>
        if String.eqb word "set" then internBody parseSetTypeBody rest r
        else if String.eqb word "vector" then internBody parseVectorTypeBody rest r
        else if String.eqb word "record" then internBody parseRecordTypeBody rest r
        else (Failed (Errorf ("unknown type: " +:+ word)), r)
      end
  end.

(** [LookupType] drops the unparsed rest.  The pair is [(typ, err)]:
    [inl typ] stands for [(typ, nil)], [inr err] for [(nil, err)]. *)
Definition LookupType (in_ : string) (r : Registry) : (Type_ + error) * Registry :=
  match parseType in_ r with
  | (Parsed _ typ, r) => (inl typ, r)
  | (Failed err, r) => (inr err, r)
  end.

(** The type assertion of [t] to a record pointer; [None] is its panic. *)
Definition assertRecord (t : Type_) : option Type_ :=
  match t with
  | TypeRecord _ _ _ => Some t
  | _ => None
  end.

(** The map is consulted twice, under the read lock and again under the
    write lock; sequentially both lookups see the same map. *)
Definition LookupTypeRecord (columns : list Column) (r : Registry)
  : option Type_ * Registry :=
  let s := recordString columns in
  match typeMap r !! s with
  | Some t => (assertRecord t, r)
  | None =>
    match typeMap r !! s with
    | Some t => (assertRecord t, r)
    | None =>
      let private := columns in
      let '(p, r) := new r in
      let rec := TypeRecord p private s in
      (Some rec, MkRegistry (<[s := rec]> (typeMap r)) (nextPtr r))
    end
  end.

End Registry.

(** ** The printed form and the compound-type parsers *)

Module SpecGrammar.

(** Modelled from the spec: the [String] methods of the types and
    [recordString] are not part of the files embedded here.  The printer
    emits the canonical form of section 4.D: no white space, members in
    declaration order.  A primitive prints as the name [typeMap] registers it
    under ([pattern] rather than its zql synonym [regexp]); a compound type
    prints as the word [parseType] dispatches on, followed by the bracketed
    members. *)
Fixpoint typeString (t : Type_) : string :=
  match t with
  | TypeBool => "bool" | TypeCount => "count" | TypeInt => "int"
  | TypeDouble => "double" | TypeTime => "time" | TypeInterval => "interval"
  | TypeString => "string" | TypePattern => "pattern" | TypePort => "port"
  | TypeAddr => "addr" | TypeSubnet => "subnet" | TypeEnum => "enum"
  | TypeUnset => "unset"
  | TypeSet _ innerType => "set[" +:+ typeString innerType +:+ "]"
  | TypeVector _ typ => "vector[" +:+ typeString typ +:+ "]"
  | TypeRecord _ Columns _ =>
    "record["
    +:+ (fix columnsString (l : list Column) : string :=
           match l with
           | [] => EmptyString
           | c :: l' =>
             Name c +:+ ":" +:+ typeString (ColType c)
             +:+ match l' with [] => EmptyString | _ :: _ => "," +:+ columnsString l' end
           end) Columns
    +:+ "]"
  end.

(** Modelled from the spec: [recordString], the registry key of a column
    list, is the printed form of the record with these columns. *)
Definition recordString (columns : list Column) : string :=
  typeString (TypeRecord 1%positive columns EmptyString).

Definition isPrimitive (t : Type_) : bool :=
  match t with
  | TypeSet _ _ | TypeVector _ _ | TypeRecord _ _ _ => false
  | _ => true
  end.

Definition expect (c : ascii) (s : string) : option string :=
  match s with
  | String d s' => if Ascii.eqb c d then Some s' else None
  | EmptyString => None
  end.

Definition badSyntax : error := Errorf "bad type syntax".

Section Bodies.

(** The parser of member types: [parseType] itself. *)
Variable parseMember : string -> Registry -> parsed * Registry.

(** Modelled from the spec: the bodies [parseSetTypeBody],
    [parseVectorTypeBody] and [parseRecordTypeBody] are not part of the
    files embedded here.  They follow the grammar of section 4.D,
      set "[" type "]",  array "[" type "]",
      record "[" (col ("," col)...) "]" with col = ident ":" type,
    and the structural rules of sections 3.1 and 4.C: a set has a
    primitive element type, a record has at least one column and no
    repeated column name.  Each returns a newly allocated, not yet
    interned, type object. *)
Definition parseSetTypeBody (in_ : string) (r : Registry) : parsed * Registry :=
  match expect "[" in_ with
  | None => (Failed badSyntax, r)
  | Some in_ =>
    match parseMember in_ r with
    | (Failed err, r) => (Failed err, r)
    | (Parsed rest inner, r) =>
      match expect "]" rest with
      | None => (Failed badSyntax, r)
      | Some rest =>
        if isPrimitive inner
        then let '(p, r) := new r in (Parsed rest (TypeSet p inner), r)
        else (Failed ErrInvalidType, r)
      end
    end
  end.

Definition parseVectorTypeBody (in_ : string) (r : Registry) : parsed * Registry :=
  match expect "[" in_ with
  | None => (Failed badSyntax, r)
  | Some in_ =>
    match parseMember in_ r with
    | (Failed err, r) => (Failed err, r)
    | (Parsed rest inner, r) =>
      match expect "]" rest with
      | None => (Failed badSyntax, r)
      | Some rest => let '(p, r) := new r in (Parsed rest (TypeVector p inner), r)
      end
    end
  end.

Definition hasColumn (name : string) (columns : list Column) : bool :=
  existsb (fun c => String.eqb (Name c) name) columns.

(** One round per column; a column takes at least three bytes. *)
Fixpoint parseColumns (fuel : nat) (in_ : string) (columns : list Column)
    (r : Registry) : (string * list Column + error) * Registry :=
  match fuel with
  | O => (inr badSyntax, r)
  | S fuel =>
    let '(rest, name) := parseWord in_ in
    if String.eqb name EmptyString then (inr badSyntax, r)
    else if hasColumn name columns then (inr ErrDuplicateField, r)
    else
      match expect ":" rest with
      | None => (inr badSyntax, r)
      | Some rest =>
        match parseMember rest r with
        | (Failed err, r) => (inr err, r)
        | (Parsed rest typ, r) =>
          let columns := columns ++ [MkColumn name typ] in
          match expect "," rest with
          | Some rest => parseColumns fuel rest columns r
          | None =>
            match expect "]" rest with
            | Some rest => (inl (rest, columns), r)
            | None => (inr badSyntax, r)
            end
          end
        end
      end
  end.

Definition parseRecordTypeBody (in_ : string) (r : Registry) : parsed * Registry :=
  match expect "[" in_ with
  | None => (Failed badSyntax, r)
  | Some in_ =>
    match expect "]" in_ with
    | Some _ => (Failed ErrInvalidType, r)
    | None =>
      match parseColumns (String.length in_) in_ [] r with
      | (inr err, r) => (Failed err, r)
      | (inl (rest, columns), r) =>
        let '(p, r) := new r in
        (Parsed rest (TypeRecord p columns (recordString columns)), r)
      end
    end
  end.

End Bodies.

(** [parseType] with its three body parsers, which call it back for the
    member types.  Every level of nesting consumes a word, so
    [String.length in_] levels are enough. *)
Fixpoint parseTypeAt (depth : nat) (in_ : string) (r : Registry) : parsed * Registry :=
  match depth with
  | O => (Failed badSyntax, r)
  | S d =>
    parseType typeString
      (parseSetTypeBody (parseTypeAt d))
      (parseVectorTypeBody (parseTypeAt d))
      (parseRecordTypeBody (parseTypeAt d)) in_ r
  end.

Definition setBody (in_ : string) := parseSetTypeBody (parseTypeAt (String.length in_)).
Definition vectorBody (in_ : string) := parseVectorTypeBody (parseTypeAt (String.length in_)).
Definition recordBody (in_ : string) := parseRecordTypeBody (parseTypeAt (String.length in_)).

(** [LookupType] on the whole package. *)
Definition lookupType (in_ : string) (r : Registry) : (Type_ + error) * Registry :=
  LookupType typeString (setBody in_) (vectorBody in_) (recordBody in_) in_ r.

End SpecGrammar.

(** ** Container bodies and their iterator *)

Module zcode.

Definition Bytes := list byte.

(** An iterator is the part of the body not yet read. *)
Definition Iter := list byte.

Inductive uvarintResult : Type :=
| Uvarint (value : N) (rest : list byte)
| UvarintErr (err : error).

(** Modelled from the spec: the package [zcode] is not part of the files
    embedded here.  Section 4.A: a uvarint is base-128 little-endian, bit 7
    of each non-final byte set; values up to 64 bits; truncated input and
    64-bit overflow fail. *)
Fixpoint uvarintFrom (shift : N) (b : list byte) : uvarintResult :=
  match b with
  | [] => UvarintErr ErrTruncated
  | x :: b' =>
    let v := Byte.to_N x in
    if (v <? 128)%N then Uvarint (N.shiftl v shift) b'
    else
      match uvarintFrom (shift + 7) b' with
      | Uvarint hi rest => Uvarint (N.lor (N.shiftl (N.land v 127) shift) hi) rest
      | UvarintErr err => UvarintErr err
      end
  end.

Definition uvarint (b : list byte) : uvarintResult :=
  match uvarintFrom 0 b with
  | Uvarint value rest =>
    if (value <? 2 ^ 64)%N then Uvarint value rest else UvarintErr ErrMalformed
  | UvarintErr err => UvarintErr err
  end.

(** The result [(bytes, container, err)] of [Next], with the iterator
    after the call; [None] bytes is the nil slice of an unset element. *)
Inductive next : Type :=
| Elem (zv : option Bytes) (container : bool) (it : Iter)
| NextErr (err : error).

Definition Done (it : Iter) : bool :=
  match it with
  | [] => true
  | _ :: _ => false
  end.

(** Modelled from the spec: section 4.B.  Tag 0 is an unset primitive, tag
    1 an unset container; otherwise, with [t = tag - 2], the body takes
    [t >> 1] bytes and [t & 1] marks a container.  The iterator never looks
    inside the body. *)
Definition Next (it : Iter) : next :=
  match uvarint it with
  | UvarintErr err => NextErr err
  | Uvarint tag rest =>
    if (tag =? 0)%N then Elem None false rest
    else if (tag =? 1)%N then Elem None true rest
    else
      let t := (tag - 2)%N in
      let n := N.to_nat (N.shiftr t 1) in
      if (length rest <? n)%nat then NextErr ErrTruncated
      else Elem (Some (firstn n rest)) (N.land t 1 =? 1)%N (skipn n rest)
  end.

(** The writer's side of section 4.B, used to spell out example bodies:
    the tag of an [n]-byte element is [2 * (n + 1)] plus the container
    bit. *)
Fixpoint putUvarint (rounds : nat) (v : N) : list byte :=
  match rounds with
  | O => []
  | S k =>
    if (v <? 128)%N then [default Byte.x00 (Byte.of_N v)]
    else default Byte.x00 (Byte.of_N (N.lor (N.land v 127) 128))
         :: putUvarint k (N.shiftr v 7)
  end.

Definition appendElem (container : bool) (zv : option Bytes) : Bytes :=
  match zv with
  | None => putUvarint 10 (if container then 1 else 0)%N
  | Some b =>
    putUvarint 10 (2 * (N.of_nat (length b) + 1) + (if container then 1 else 0))%N ++ b
  end.

Definition AppendPrimitive (dst : Bytes) (zv : option Bytes) : Bytes :=
  dst ++ appendElem false zv.
Definition AppendContainer (dst : Bytes) (zv : option Bytes) : Bytes :=
  dst ++ appendElem true zv.

End zcode.
Import zcode.

(** ** Typed encodings *)

(** [TypedEncoding] in [zng/type.go]; [expr/fieldexpr.go] calls the same
    pair [zng.Value].  [Typ] is the [Type] field ([None]: the nil
    interface), [Body] the byte slice ([None]: the nil slice, an unset
    value). *)
Record TypedEncoding : Type := MkTypedEncoding {
  Typ : option Type_;
  Body : option Bytes
}.

Abbreviation Value := TypedEncoding.
Abbreviation MkValue := MkTypedEncoding.

(** The zero value [TypedEncoding{}]. *)
Definition zero : TypedEncoding := MkTypedEncoding None None.

(** [e.Iter()]: the nil slice converts to the empty iterator. *)
Definition IterOf (e : TypedEncoding) : Iter :=
  match Body e with
  | Some b => b
  | None => []
  end.

(** The loop of [ContainerLength].  Every [Next] consumes at least one
    byte, so the loop makes at most [length it] rounds; [None] is the model
    running out of rounds. *)
Fixpoint lengthLoop (rounds : nat) (it : Iter) (n : Z) : option (Z * option error) :=
  match rounds with
  | O => None
  | S rounds =>
    if Done it then Some (n, None)
    else
      match Next it with
      | NextErr err => Some ((-1)%Z, Some err)
      | Elem _ _ it => lengthLoop rounds it (n + 1)%Z
      end
  end.

(** The pair is [(n, err)].  [n] is a Go [int]; it is bounded by the length
    of the body, so it never wraps. *)
Definition ContainerLength (e : TypedEncoding) : option (Z * option error) :=
  match Typ e with
  | Some (TypeSet _ _) | Some (TypeVector _ _) =>
    match Body e with
    | None => Some ((-1)%Z, Some ErrLenUnset)
    | Some _ => lengthLoop (S (length (IterOf e))) (IterOf e) 0%Z
    end
  | _ => Some ((-1)%Z, Some ErrNotContainer)
  end.

(** The loop of [VectorIndex]; [i] counts the elements read so far. *)
Fixpoint indexLoop (rounds : nat) (typ : Type_) (idx : Z) (i : Z) (it : Iter)
  : option (TypedEncoding * option error) :=
  match rounds with
  | O => None
  | S rounds =>
    if Done it then Some (zero, Some ErrIndex)
    else
      match Next it with
      | NextErr err => Some (zero, Some err)
      | Elem zv _ it =>
        if (i =? idx)%Z then Some (MkTypedEncoding (Some typ) zv, None)
        else indexLoop rounds typ idx (i + 1)%Z it
      end
  end.

(** [idx] is an [int64]; [int] is taken to be 64 bits wide, so [int(idx)]
    is [idx]. *)
Definition VectorIndex (e : TypedEncoding) (idx : Z)
  : option (TypedEncoding * option error) :=
  match Typ e with
  | Some (TypeVector _ typ) =>
    if (idx <? 0)%Z then Some (zero, Some ErrIndex)
    else indexLoop (S (length (IterOf e))) typ idx 0%Z (IterOf e)
  | _ => Some (zero, Some ErrNotVector)
  end.

(** [expr/fieldexpr.go] calls the method [ArrayIndex]. *)
Definition ArrayIndex := VectorIndex.

(** ** The field-path evaluator *)

Module Expr.

(** The path AST of package [ast]: a [FieldRead] names the top-level
    field, a [FieldCall] wraps an inner path.  [FieldOther] stands for
    every other node, nil included. *)
Inductive FieldExpr : Type :=
| FieldRead (Field : string)
| FieldCall (Fn : string) (Field : FieldExpr) (Param : string)
| FieldOther.

(** [strconv.ParseInt(s, 10, 64)]. *)
Definition digit (c : ascii) : option Z :=
  if geb c "0" && leb c "9" then Some (Z.of_N (N_of_ascii c) - 48)%Z else None.

Fixpoint digits (s : string) (acc : Z) : option Z :=
  match s with
  | EmptyString => Some acc
  | String c s' =>
    match digit c with
    | Some d => digits s' (10 * acc + d)%Z
    | None => None
    end
  end.

Definition ParseInt (s : string) : Z + error :=
  let '(neg, body) :=
    match s with
    | String "+" s' => (false, s')
    | String "-" s' => (true, s')
    | _ => (false, s)
    end in
  match body with
  | EmptyString => inr ErrSyntax
  | String _ _ =>
    match digits body 0 with
    | None => inr ErrSyntax
    | Some n =>
      let v := (if neg then - n else n)%Z in
      if ((- 2 ^ 63 <=? v) && (v <? 2 ^ 63))%Z then inl v else inr ErrRange
    end
  end.

(** The two implementations of the interface [fieldop]. *)
Inductive fieldop : Type :=
| arrayIndex (idx : Z)
| fieldRead (field : string).

Definition arrayIndex_apply (idx : Z) (e : Value) : option Value :=
  '(el, err) ← ArrayIndex e idx;
  match err with
  | Some err =>
    if decide (err = ErrIndex)
    then let typ := InnerType (Typ e) in Some (MkValue typ None)
    else Some zero
  | None => Some el
  end.

(** The walk [for i := 0; i <= n; i++] to an element: [Reached v] when
    the loop runs to its end, [Stopped] when it returns from the
    function. *)
Inductive walked : Type :=
| Reached (v : option Bytes)
| Stopped.

Fixpoint walk (rounds : nat) (it : Iter) (v : option Bytes) : walked :=
  match rounds with
  | O => Reached v
  | S rounds =>
    if Done it then Stopped
    else
      match Next it with
      | NextErr _ => Stopped
      | Elem v _ it => walk rounds it v
      end
  end.

(** The scan [for n, col := range recType.Columns], from column [n] on. *)
Fixpoint scanColumns (field : string) (e : Value) (columns : list Column) (n : nat) : Value :=
  match columns with
  | [] => zero
  | col :: columns =>
    if String.eqb (Name col) field then
      match walk (S n) (IterOf e) None with
      | Stopped => zero
      | Reached v => MkValue (Some (ColType col)) v
      end
    else scanColumns field e columns (S n)
  end.

Definition fieldRead_apply (field : string) (e : Value) : Value :=
  match Typ e with
  | Some (TypeRecord _ Columns _) => scanColumns field e Columns 0
  | _ => zero
  end.

Definition apply (op : fieldop) (e : Value) : option Value :=
  match op with
  | arrayIndex idx => arrayIndex_apply idx e
  | fieldRead field => Some (fieldRead_apply field e)
  end.

(** The loop that collapses the AST, innermost operation first. *)
Fixpoint collapse (node : FieldExpr) (ops : list fieldop) : string * list fieldop + error :=
  match node with
  | FieldRead field => inl (field, ops)
  | FieldCall Fn node Param =>
    if String.eqb Fn "Index" then
      match ParseInt Param with
      | inr err => inr err
      | inl idx => collapse node (arrayIndex idx :: ops)
      end
    else if String.eqb Fn "RecordFieldRead" then
      collapse node (fieldRead Param :: ops)
    else inr (Errorf ("unknown FieldCall: " +:+ Fn))
  | FieldOther => inr (Errorf "filter AST unknown field op")
  end.

(** A [zng.Record]: the record type object it points to and the raw
    body. *)
Record Record_ : Type := MkRecord {
  RAt : ptr;
  RColumns : list Column;
  RKey : string;
  Raw : Bytes
}.

Definition RType (r : Record_) : Type_ := TypeRecord (RAt r) (RColumns r) (RKey r).

(** Modelled from the spec: the column table [LUT] of a record type is not
    part of the files embedded here.  Section 4.G, step 1: look up the top
    field in the record's type column table.  Column names are unique
    within a record (section 3.1). *)
Fixpoint lut (columns : list Column) (field : string) (n : nat) : option nat :=
  match columns with
  | [] => None
  | col :: columns =>
    if String.eqb (Name col) field then Some n else lut columns field (S n)
  end.

Definition LUT (r : Record_) (field : string) : option nat :=
  lut (RColumns r) field 0.

(** Modelled from the spec: the method [Record.Value] is not part of the
    files embedded here.  Section 4.G, step 2: advance the container
    iterator to the column's ordinal position to obtain the column's byte
    slice and type.  A column the body does not reach gives the zero
    value. *)
Definition Value_ (r : Record_) (col : nat) : Value :=
  match RColumns r !! col with
  | None => zero
  | Some c =>
    match walk (S col) (Raw r) None with
    | Stopped => zero
    | Reached v => MkValue (Some (ColType c)) v
    end
  end.

(** The loop [for _, op := range ops] of the resolver. *)
Fixpoint applyOps (ops : list fieldop) (e : Value) : option Value :=
  match ops with
  | [] => Some e
  | op :: ops =>
    e ← apply op e;
    match Typ e with
    | None => Some e
    | Some _ => applyOps ops e
    end
  end.

(** The closure [CompileFieldExpr] returns. *)
Definition resolver (field : string) (ops : list fieldop) (r : Record_) : option Value :=
  match LUT r field with
  | None => Some zero
  | Some col =>
    let e := Value_ r col in
    applyOps ops e
  end.

Definition FieldExprResolver : Type := Record_ -> option Value.

Definition CompileFieldExpr (node : FieldExpr) : FieldExprResolver + error :=
  match collapse node [] with
  | inr err => inr err
  | inl (field, ops) => inl (resolver field ops)
  end.

(** Evaluation of a path on a record: [Some (inl v)] is the value the
    resolver returns, [Some (inr err)] a path that does not compile. *)
Definition evaluate (node : FieldExpr) (r : Record_) : option (Value + error) :=
  match CompileFieldExpr node with
  | inr err => Some (inr err)
  | inl resolve => inl <$> resolve r
  end.

End Expr.
Import Expr.

(** ** The records of the scenarios *)

Module Scenario.

Definition text (s : string) : Bytes :=
  map (fun c => default Byte.x00 (Byte.of_N (N_of_ascii c))) (list_ascii_of_string s).

(** 90 as an IEEE 754 double, little-endian: 0x4056800000000000. *)
Definition ninety : Bytes :=
  [Byte.x00; Byte.x00; Byte.x00; Byte.x00; Byte.x00; Byte.x80; Byte.x56; Byte.x40].

Definition LLColumns : list Column :=
  [MkColumn "compass" TypeString; MkColumn "degree" TypeDouble].
Definition LL : Type_ :=
  TypeRecord 1%positive LLColumns (SpecGrammar.recordString LLColumns).

Definition cityColumns : list Column :=
  [MkColumn "city" TypeString; MkColumn "lat" LL; MkColumn "long" LL].

(** The value [[NorthPole;[N;90;]-;]]: the column [long] is unset. *)
Definition northPoleRaw : Bytes :=
  let lat := AppendPrimitive (AppendPrimitive [] (Some (text "N"))) (Some ninety) in
  AppendContainer
    (AppendContainer (AppendPrimitive [] (Some (text "NorthPole"))) (Some lat))
    None.

Definition northPole : Record_ :=
  MkRecord 2%positive cityColumns (SpecGrammar.recordString cityColumns) northPoleRaw.

(** The path [top.field]. *)
Definition path (top : string) (field : string) : FieldExpr :=
  FieldCall "RecordFieldRead" (FieldRead top) field.

(** The path [top[idx]]. *)
Definition index (top : string) (idx : string) : FieldExpr :=
  FieldCall "Index" (FieldRead top) idx.

(** A record [[[a;b;][a;b;]]] of type [record[s:set[string],v:vector[string]]]. *)
Definition tagsColumns : list Column :=
  [MkColumn "s" (TypeSet 3%positive TypeString);
   MkColumn "v" (TypeVector 4%positive TypeString)].

Definition ab : Bytes :=
  AppendPrimitive (AppendPrimitive [] (Some (text "a"))) (Some (text "b")).

Definition tags : Record_ :=
  MkRecord 5%positive tagsColumns (SpecGrammar.recordString tagsColumns)
           (AppendContainer (AppendContainer [] (Some ab)) (Some ab)).

(** The value [[1;]] under the type [record[a:string,b:string]]: the body
    is one element short. *)
Definition abColumns : list Column :=
  [MkColumn "a" TypeString; MkColumn "b" TypeString].

Definition short : Value :=
  MkValue (Some (TypeRecord 6%positive abColumns (SpecGrammar.recordString abColumns)))
          (Some (AppendPrimitive [] (Some (text "1")))).

End Scenario.

(** ** Vocabulary of the properties *)

(** Every handle the registry holds is also filed under its own printed
    form. *)
Definition canonical (String_ : Type_ -> string) (r : Registry) : Prop :=
  forall (k : string) (t : Type_),
    typeMap r !! k = Some t -> typeMap r !! String_ t = Some t.

(** [t] can be obtained from the registry: some key leads to it. *)
Definition held (r : Registry) (t : Type_) : Prop :=
  exists k : string, typeMap r !! k = Some t.

(** The names [typeMap] is initialised with. *)
Definition primitiveNames : list (string * Type_) :=
  [ ("bool", TypeBool); ("count", TypeCount); ("int", TypeInt);
    ("double", TypeDouble); ("time", TypeTime); ("interval", TypeInterval);
    ("string", TypeString); ("pattern", TypePattern); ("regexp", TypePattern);
    ("port", TypePort); ("addr", TypeAddr); ("subnet", TypeSubnet);
    ("enum", TypeEnum); ("unset", TypeUnset) ].


(** Iterating [it] to its end gives the elements [els], one per [Next]. *)
Inductive Yields : Iter -> list (option Bytes) -> Prop :=
| Yields_done (it : Iter) :
    Done it = true -> Yields it []
| Yields_next (it it' : Iter) (zv : option Bytes) (container : bool)
              (els : list (option Bytes)) :
    Done it = false -> Next it = Elem zv container it' -> Yields it' els ->
    Yields it (zv :: els).

(** Iterating [it] runs into the error [err] after [n] elements. *)
Inductive Fails : Iter -> nat -> error -> Prop :=
| Fails_here (it : Iter) (err : error) :
    Done it = false -> Next it = NextErr err -> Fails it 0 err
| Fails_later (it it' : Iter) (zv : option Bytes) (container : bool)
              (n : nat) (err : error) :
    Done it = false -> Next it = Elem zv container it' -> Fails it' n err ->
    Fails it (S n) err.

Definition isSetOrVector (typ : option Type_) : bool :=
  match typ with
  | Some (TypeSet _ _) | Some (TypeVector _ _) => true
  | _ => false
  end.

Definition isVector (typ : option Type_) : bool :=
  match typ with
  | Some (TypeVector _ _) => true
  | _ => false
  end.


(** The body parser [body] leaves a canonical registry canonical. *)
Definition keeps (String_ : Type_ -> string)
    (body : string -> Registry -> parsed * Registry) : Prop :=
  forall (in_ : string) (r : Registry),
    canonical String_ r -> canonical String_ (snd (body in_ r)).

(** The address of the object a handle points to; the primitives are
    package-level variables, outside the allocator. *)
Definition address (t : Type_) : option ptr :=
  match t with
  | TypeSet p _ | TypeVector p _ | TypeRecord p _ _ => Some p
  | _ => None
  end.

(** One object per address: two handles of the registry that Go's [==]
    identifies are one handle. *)
Definition consistent (r : Registry) : Prop :=
  forall t1 t2 : Type_,
    held r t1 -> held r t2 -> identityOf t1 = identityOf t2 -> t1 = t2.

(** The objects of the registry were allocated before [nextPtr]. *)
Definition allocated (r : Registry) : Prop :=
  forall (t : Type_) (p : ptr),
    held r t -> address t = Some p -> (p < nextPtr r)%positive.

(** Every pattern has a byte. *)
Definition someByte (ps : list string) : Prop :=
  Forall (fun p => p <> EmptyString) ps.

(** No pattern starts with the byte [c]. *)
Definition noLead (ps : list string) (c : ascii) : bool :=
  forallb (fun p => match p with
                    | String a _ => negb (Ascii.eqb a c)
                    | EmptyString => false
                    end) ps.

(** Iterate a concrete body to its end. *)
Ltac yields :=
  repeat (eapply Yields_next; [reflexivity | reflexivity |]);
  apply Yields_done; reflexivity.

(** The identifiers of the format's grammar, [[A-Za-z_$][A-Za-z0-9_$]*],
    written after the format specification; the parser's words are compared
    with it below. *)
Module Grammar.

Definition isIdStart (c : ascii) : bool :=
  (geb c "a" && leb c "z") || (geb c "A" && leb c "Z")
  || Ascii.eqb c "_" || Ascii.eqb c "$".

Definition isIdContinue (c : ascii) : bool :=
  isIdStart c || (geb c "0" && leb c "9").

Definition isIdent (s : string) : bool :=
  match s with
  | EmptyString => false
  | String c s' => isIdStart c && forallb isIdContinue (list_ascii_of_string s')
  end.

End Grammar.

Definition allId (w : string) : Prop :=
  Forall (fun c => isIdChar c = true) (list_ascii_of_string w).

(** The string is empty or starts with a byte that is not a word byte. *)
Definition wordStops (s : string) : Prop :=
  match s with
  | EmptyString => True
  | String c _ => isIdChar c = false
  end.

(** ** More of package zng *)

(** [strings.TrimPrefix] and [strings.TrimSuffix]: the string without the
    given prefix (suffix), or the string itself when it does not start (end)
    with it. *)
Definition TrimPrefix (s prefix : string) : string :=
  match dropPrefix prefix s with
  | Some rest => rest
  | None => s
  end.

Definition TrimSuffix (s suffix : string) : string :=
  match dropPrefix (GoStrings.rev suffix) (GoStrings.rev s) with
  | Some rest => GoStrings.rev rest
  | None => s
  end.

Definition trimInnerTypes (typ : string) (raw : string) : string :=
  let innerTypes := TrimPrefix raw (typ +:+ "[") in
  let innerTypes := TrimSuffix innerTypes "]" in
  innerTypes.

(** A [Predicate] is a function from typed encodings to booleans. *)
Definition Predicate : Type := TypedEncoding -> bool.

(** The loop of the predicate [Contains] builds; [elType] is the type put
    into [el] before the loop.  [None] is the model running out of rounds. *)
Fixpoint containsLoop (rounds : nat) (compare : Predicate) (elType : option Type_)
    (it : Iter) : option bool :=
  match rounds with
  | O => None
  | S rounds =>
    if Done it then Some false
    else
      match Next it with
      | NextErr _ => Some false
      | Elem zv _ it =>
        if compare (MkTypedEncoding elType zv) then Some true
        else containsLoop rounds compare elType it
      end
  end.

Definition Contains (compare : Predicate) (e : TypedEncoding) : option bool :=
  match Typ e with
  | Some (TypeSet _ innerType) =>
    containsLoop (S (length (IterOf e))) compare (Some innerType) (IterOf e)
  | Some (TypeVector _ typ) =>
    containsLoop (S (length (IterOf e))) compare (Some typ) (IterOf e)
  | _ => Some false
  end.

(** The loop of [Elements]; the slice [elements] is a list, the nil slice
    the empty list. *)
Fixpoint elementsLoop (rounds : nat) (innerType : option Type_) (it : Iter)
    (elements : list TypedEncoding) : option (list TypedEncoding * option error) :=
  match rounds with
  | O => None
  | S rounds =>
    if Done it then Some (elements, None)
    else
      match Next it with
      | NextErr err => Some ([], Some err)
      | Elem zv _ it =>
        elementsLoop rounds innerType it (elements ++ [MkTypedEncoding innerType zv])
      end
  end.

Definition Elements (e : TypedEncoding) : option (list TypedEncoding * option error) :=
  let innerType := InnerType (Typ e) in
  match innerType with
  | None => Some ([], Some ErrNotContainer)
  | Some _ => elementsLoop (S (length (IterOf e))) innerType (IterOf e) []
  end.

(** ** More of package expr *)

(** [None] is the nil slice of nodes, [inl None] the nil slice of
    resolvers. *)
Fixpoint compileEach (nodes : list FieldExpr) (resolvers : list FieldExprResolver)
  : list FieldExprResolver + error :=
  match nodes with
  | [] => inl resolvers
  | exp :: nodes =>
    match CompileFieldExpr exp with
    | inr err => inr err
    | inl res => compileEach nodes (resolvers ++ [res])
    end
  end.

Definition CompileFieldExprs (nodes : option (list FieldExpr))
  : option (list FieldExprResolver) + error :=
  match nodes with
  | None => inl None
  | Some nodes =>
    match compileEach nodes [] with
    | inr err => inr err
    | inl resolvers => inl (Some resolvers)
    end
  end.

(** [None] is a panic. *)
Fixpoint FieldExprToString (node : FieldExpr) : option string :=
  match node with
  | FieldRead Field => Some Field
  | FieldCall Fn Field Param =>
    if String.eqb Fn "Len" then
      s ← FieldExprToString Field; Some ("len(" +:+ s +:+ ")")
    else if String.eqb Fn "Index" then
      s ← FieldExprToString Field; Some (s +:+ "[" +:+ Param +:+ "]")
    else if String.eqb Fn "RecordFieldRead" then
      s ← FieldExprToString Field; Some (s +:+ "." +:+ Param)
    else None
  | FieldOther => None
  end.

(** ** The test source of package proc *)

Module Proc.
Section Batches.

(** The batches behind the interface [zbuf.Batch]; [None] is the nil
    interface. *)
Variable Batch : Type.

(** The result [(batch, err)] of a [Pull]. *)
Definition pulled : Type := option Batch * option error.

Record TestSource : Type := MkTestSource {
  records : list (option Batch);
  idx : nat
}.

Definition NewTestSource (batches : list (option Batch)) : TestSource :=
  MkTestSource batches 0.

Definition TestSource_Pull (t : TestSource) : pulled * TestSource :=
  if (length (records t) <=? idx t)%nat then ((None, None), t)
  else
    let b := default None (records t !! idx t) in
    ((b, None), MkTestSource (records t) (idx t + 1)).

(** A [ProcTest] around a proc whose state is [P] and whose [Pull] is
    [pull]. *)
Variable P : Type.
Variable pull : P -> pulled * P.

Record ProcTest : Type := MkProcTest {
  compiledProc : P;
  eos : bool
}.

Definition NewProcTest (proc : P) : ProcTest := MkProcTest proc false.

Definition ProcTest_Pull (p : ProcTest) : pulled * ProcTest :=
  if eos p then ((None, Some (Errorf "called Pull() after EOS")), p)
  else
    let '((b, err), proc) := pull (compiledProc p) in
    match b, err with
    | None, None => ((b, err), MkProcTest proc true)
    | _, _ => ((b, err), MkProcTest proc (eos p))
    end.

(** The error [ExpectEOS] returns; [None] is nil. *)
Definition ExpectEOS (p : ProcTest) : option error * ProcTest :=
  let '((b, err), p) := ProcTest_Pull p in
  match err with
  | Some err => (Some err, p)
  | None =>
    match b with
    | Some _ => (Some (Errorf "got more data after ExpectEOS()"), p)
    | None => (None, p)
    end
  end.

(** [n] calls of [Pull] in a row: the results, oldest first, and the state
    they leave. *)
Fixpoint pulls {T : Type} (step : T -> pulled * T) (n : nat) (t : T) : list pulled * T :=
  match n with
  | O => ([], t)
  | S n => let '(b, t) := step t in
           let '(bs, t) := pulls step n t in (b :: bs, t)
  end.

(** The error of a [Pull] after the end of the stream. *)
Definition afterEOS : error := Errorf "called Pull() after EOS".

(** What the [k]-th [Pull] of a [ProcTest] on a source of the batches
    [batches] is expected to return. *)
Definition expected (batches : list Batch) (k : nat) : pulled :=
  if (k <? length batches)%nat then (batches !! k, None)
  else if (k =? length batches)%nat then (None, None)
  else (None, Some afterEOS).

End Batches.
End Proc.

(** ** More vocabulary *)

(** Iterating [it]: the elements [els] read, and how the iteration ends,
    at the end of the body ([None]) or on the error of a [Next]. *)
Inductive Iterates : Iter -> list (option Bytes) -> option error -> Prop :=
| Iterates_done (it : Iter) :
    Done it = true -> Iterates it [] None
| Iterates_err (it : Iter) (err : error) :
    Done it = false -> Next it = NextErr err -> Iterates it [] (Some err)
| Iterates_next (it it' : Iter) (zv : option Bytes) (container : bool)
                (els : list (option Bytes)) (fin : option error) :
    Done it = false -> Next it = Elem zv container it' -> Iterates it' els fin ->
    Iterates it (zv :: els) fin.

(** The typed encodings of the elements [els] of a container. *)
Definition typed (innerType : option Type_) (els : list (option Bytes))
  : list TypedEncoding :=
  map (MkTypedEncoding innerType) els.

(** Every operation of the path parses: the calls are [Index] with a
    decimal [int64] or [RecordFieldRead], down to a [FieldRead]. *)
Fixpoint compiles (node : FieldExpr) : bool :=
  match node with
  | FieldRead _ => true
  | FieldCall Fn node Param =>
    (if String.eqb Fn "Index" then
       match ParseInt Param with inl _ => true | inr _ => false end
     else String.eqb Fn "RecordFieldRead")
    && compiles node
  | FieldOther => false
  end.

(** The operation a call stands for. *)
Definition opOf (Fn Param : string) : option fieldop :=
  if String.eqb Fn "Index" then
    match ParseInt Param with
    | inl idx => Some (arrayIndex idx)
    | inr _ => None
    end
  else if String.eqb Fn "RecordFieldRead" then Some (fieldRead Param)
  else None.

(** The registry [r'] has every binding of [r]. *)
Definition grows (r r' : Registry) : Prop :=
  forall (k : string) (t : Type_),
    typeMap r !! k = Some t -> typeMap r' !! k = Some t.

(** The body parser [body] only adds bindings. *)
Definition growing (body : string -> Registry -> parsed * Registry) : Prop :=
  forall (in_ : string) (r : Registry), grows r (snd (body in_ r)).

(** ** More sample values *)

Module Samples.

(** The vector [[a;b;]] of strings. *)
Definition letters : TypedEncoding :=
  MkTypedEncoding (Some (TypeVector 4%positive TypeString)) (Some Scenario.ab).

(** The same body followed by the tag of a one-byte element that is not
    there. *)
Definition brokenBody : Bytes := Scenario.ab ++ [Byte.x04].

Definition broken : TypedEncoding :=
  MkTypedEncoding (Some (TypeVector 4%positive TypeString)) (Some brokenBody).

Definition a : option Bytes := Some (Scenario.text "a").
Definition b : option Bytes := Some (Scenario.text "b").

End Samples.

(** Iterate a concrete body to its end or to its error. *)
Ltac iterates :=
  repeat (eapply Iterates_next; [reflexivity | reflexivity |]);
  first [apply Iterates_done; reflexivity | apply Iterates_err; reflexivity].

(** * Properties *)

(** ** Words *)

Lemma isIdChar_chars (c : ascii) :
  isIdChar c = true <->
  In c (list_ascii_of_string
          "abcdefghijklmnopqrstuvwxyzABCDEFGHIJKLMNOPQRSTUVWXYZ0123456789_.").
Proof.
  split.
  - destruct c as [[] [] [] [] [] [] [] []]; vm_compute; intros H;
      first [discriminate H | tauto].
  - intros H. cbn in H.
    repeat (destruct H as [<- | H]; [reflexivity |]). destruct H.
Qed.

Lemma append_cons (c : ascii) (x y : string) :
  String c x +:+ y = String c (x +:+ y).
Proof. reflexivity. Qed.

Lemma wordEnd_split (s : string) :
  s = sliceTo (wordEnd s) s +:+ sliceFrom (wordEnd s) s.
Proof.
  induction s as [| c s IH]; cbn; [reflexivity |].
  destruct (isIdChar c); cbn; [| reflexivity].
  rewrite append_cons. f_equal. exact IH.
Qed.

Lemma wordEnd_allId (s : string) : allId (sliceTo (wordEnd s) s).
Proof.
  unfold allId. induction s as [| c s IH]; cbn; [constructor |].
  destruct (isIdChar c) eqn:E; cbn; [| constructor].
  constructor; assumption.
Qed.

Lemma wordEnd_stops (s : string) : wordStops (sliceFrom (wordEnd s) s).
Proof.
  induction s as [| c s IH]; cbn; [exact I |].
  destruct (isIdChar c) eqn:E; cbn; assumption.
Qed.

Lemma wordEnd_app (w rest : string) :
  allId w -> wordStops rest ->
  wordEnd (w +:+ rest) = String.length w
  /\ sliceTo (String.length w) (w +:+ rest) = w
  /\ sliceFrom (String.length w) (w +:+ rest) = rest.
Proof.
  unfold allId. intros Hw Hr. induction w as [| c w IH].
  - change (EmptyString +:+ rest) with rest.
    destruct rest as [| d rest]; cbn in *; [auto |]. rewrite Hr. auto.
  - rewrite append_cons. cbn in Hw.
    inversion Hw as [| ? ? Hc Hw']; subst. cbn. rewrite Hc.
    destruct (IH Hw') as (E1 & E2 & E3). rewrite E1, E2, E3. auto.
Qed.

Lemma wordEnd_0 (s : string) : wordEnd s = 0%nat <-> wordStops s.
Proof.
  destruct s as [| c s]; cbn; [tauto |].
  destruct (isIdChar c); split; intros H; congruence.
Qed.

Lemma parseWord_word (in_ rest word : string) :
  word <> EmptyString ->
  parseWord in_ = (rest, word) <->
  TrimSpace in_ = word +:+ rest /\ allId word /\ wordStops rest.
Proof.
  intros Hne. unfold parseWord. split.
  - destruct (Nat.eqb_spec (wordEnd (TrimSpace in_)) 0) as [E | E].
    + intros [= <- <-]. congruence.
    + intros [= <- <-]. split; [apply wordEnd_split |].
      split; [apply wordEnd_allId | apply wordEnd_stops].
  - intros (Hs & Hw & Hr). rewrite Hs.
    destruct (wordEnd_app word rest Hw Hr) as (-> & -> & ->).
    destruct word; [congruence | reflexivity].
Qed.

Lemma parseWord_none (in_ : string) :
  parseWord in_ = (EmptyString, EmptyString) <-> wordStops (TrimSpace in_).
Proof.
  unfold parseWord. rewrite <- wordEnd_0.
  destruct (Nat.eqb_spec (wordEnd (TrimSpace in_)) 0) as [E | E]; [tauto |].
  split; [| congruence]. intros [= _ H]. exfalso.
  destruct (TrimSpace in_) as [| c s]; cbn in *; [congruence |].
  destruct (isIdChar c); cbn in *; congruence.
Qed.

(** C7, as the code has it.  The bytes of a word are the letters, the
    digits, the underscore and the dot; [parseWord] returns the longest
    non-empty run of them at the start of the trimmed input, whatever byte
    it starts with, and no word when the trimmed input does not start with
    one. *)
Theorem parseWord_words :
  (forall c : ascii,
      isIdChar c = true <->
      In c (list_ascii_of_string
              "abcdefghijklmnopqrstuvwxyzABCDEFGHIJKLMNOPQRSTUVWXYZ0123456789_."))
  /\ (forall in_ rest word : string,
         word <> EmptyString ->
         parseWord in_ = (rest, word) <->
         TrimSpace in_ = word +:+ rest /\ allId word /\ wordStops rest)
  /\ (forall in_ : string,
         parseWord in_ = (EmptyString, EmptyString) <-> wordStops (TrimSpace in_)).
Proof.
  split; [exact isIdChar_chars |].
  split; [exact parseWord_word | exact parseWord_none].
Qed.

Lemma parseWord_words_witness :
  parseWord " id.orig_h:addr" = (":addr", "id.orig_h").
Proof.
  destruct parseWord_words as (_ & H & _).
  apply H; [discriminate |].
  split; [reflexivity |]. split; [| reflexivity].
  unfold allId. cbn. repeat constructor.
Defined.

(** C7 as stated fails both ways: [$x] is an identifier of the grammar and
    not a word of the parser, [9.a] is a word of the parser and not an
    identifier of the grammar. *)
Lemma parseWord_not_grammar_identifiers :
  (Grammar.isIdent "$x" = true /\ parseWord "$x" = (EmptyString, EmptyString))
  /\ (Grammar.isIdent "9.a" = false /\ parseWord "9.a" = (EmptyString, "9.a")).
Proof. repeat split. Qed.

(** ** The registry *)

Section RegistryFacts.

Variable String_ : Type_ -> string.
Variable recordString : list Column -> string.
Variables parseSetTypeBody parseVectorTypeBody parseRecordTypeBody :
  string -> Registry -> parsed * Registry.

Local Abbreviation addType' := (addType String_).
Local Abbreviation LookupVectorType' := (LookupVectorType String_).
Local Abbreviation LookupTypeRecord' := (LookupTypeRecord recordString).
Local Abbreviation parseType' :=
  (parseType String_ parseSetTypeBody parseVectorTypeBody parseRecordTypeBody).
Local Abbreviation LookupType' :=
  (LookupType String_ parseSetTypeBody parseVectorTypeBody parseRecordTypeBody).

Lemma addType_present (t old : Type_) (r : Registry) :
  typeMap r !! String_ t = Some old -> addType' t r = (old, r).
Proof. intros H. unfold addType. now rewrite H. Qed.

Lemma addType_absent (t : Type_) (r : Registry) :
  typeMap r !! String_ t = None ->
  addType' t r = (t, MkRegistry (<[String_ t := t]> (typeMap r)) (nextPtr r)).
Proof. intros H. unfold addType. now rewrite H. Qed.

(** After interning, the printed form of the candidate leads to the
    handle returned. *)
Lemma addType_filed (t h : Type_) (r r' : Registry) :
  addType' t r = (h, r') -> typeMap r' !! String_ t = Some h.
Proof.
  unfold addType. destruct (typeMap r !! String_ t) eqn:E; intros [= <- <-].
  - exact E.
  - cbn. apply lookup_insert_eq.
Qed.



Lemma assertRecord_Some (t h : Type_) : assertRecord t = Some h -> t = h.
Proof. destruct t; cbn; congruence. Qed.

Lemma LookupTypeRecord_filed (columns : list Column) (h : Type_) (r r' : Registry) :
  LookupTypeRecord' columns r = (Some h, r') ->
  typeMap r' !! recordString columns = Some h /\ assertRecord h = Some h.
Proof.
  unfold LookupTypeRecord.
  destruct (typeMap r !! recordString columns) as [t |] eqn:E.
  - intros [= Ha <-]. pose proof (assertRecord_Some _ _ Ha) as ->. now split.
  - cbn. intros [= <- <-]. cbn. split; [apply lookup_insert_eq | reflexivity].
Qed.





(** *** The registry stays canonical *)

Lemma new_canonical (r : Registry) :
  canonical String_ r -> canonical String_ (snd (new r)).
Proof. intros H. exact H. Qed.

Lemma insert_canonical (key : string) (t : Type_) (r : Registry) (next : ptr) :
  String_ t = key -> canonical String_ r -> typeMap r !! key = None ->
  canonical String_ (MkRegistry (<[key := t]> (typeMap r)) next).
Proof.
  intros <- Hc Hnone k u. cbn. intros Hk.
  apply lookup_insert_Some in Hk as [[_ <-] | [_ Hk]].
  - apply lookup_insert_eq.
  - pose proof (Hc _ _ Hk) as Hu.
    rewrite lookup_insert_ne; [exact Hu |]. congruence.
Qed.

Lemma addType_canonical (t : Type_) (r : Registry) :
  canonical String_ r -> canonical String_ (snd (addType' t r)).
Proof.
  intros Hc. unfold addType.
  destruct (typeMap r !! String_ t) eqn:E; cbn; [exact Hc |].
  now apply insert_canonical.
Qed.

Lemma addType_held (t : Type_) (r : Registry) :
  held (snd (addType' t r)) (fst (addType' t r)).
Proof.
  exists (String_ t). destruct (addType' t r) as [h r'] eqn:E.
  exact (addType_filed _ _ _ _ E).
Qed.

(** The record type prints as the key it is filed under. *)
Hypothesis String_record :
  forall (p : ptr) (columns : list Column),
    String_ (TypeRecord p columns (recordString columns)) = recordString columns.

Lemma LookupTypeRecord_canonical (columns : list Column) (r : Registry) :
  canonical String_ r -> canonical String_ (snd (LookupTypeRecord' columns r)).
Proof.
  intros Hc. unfold LookupTypeRecord.
  destruct (typeMap r !! recordString columns) eqn:E; cbn; [exact Hc |].
  apply insert_canonical; [apply String_record | exact Hc | exact E].
Qed.

End RegistryFacts.

(** ** The type parser *)

Section ParserFacts.

Variable String_ : Type_ -> string.
Variables parseSetTypeBody parseVectorTypeBody parseRecordTypeBody :
  string -> Registry -> parsed * Registry.

Local Abbreviation addType' := (addType String_).
Local Abbreviation parseType' :=
  (parseType String_ parseSetTypeBody parseVectorTypeBody parseRecordTypeBody).
Local Abbreviation LookupType' :=
  (LookupType String_ parseSetTypeBody parseVectorTypeBody parseRecordTypeBody).

Lemma parseType_whole (in_ : string) (t : Type_) (r : Registry) :
  typeMap r !! TrimSpace in_ = Some t ->
  parseType' in_ r = (Parsed EmptyString t, r).
Proof. intros H. unfold parseType. now rewrite H. Qed.

Lemma eqb_empty (word : string) :
  word <> EmptyString -> String.eqb word EmptyString = false.
Proof. intros H. now apply String.eqb_neq. Qed.

(** A registered leading word decides the type; the rest is handed
    back. *)
Lemma parseType_word (in_ rest word : string) (t : Type_) (r : Registry) :
  typeMap r !! TrimSpace in_ = None ->
  parseWord in_ = (rest, word) -> word <> EmptyString ->
  typeMap r !! word = Some t ->
  parseType' in_ r = (Parsed rest t, r).
Proof.
  intros H0 Hw Hne Ht. unfold parseType.
  now rewrite H0, Hw, (eqb_empty _ Hne), Ht.
Qed.




(** C2.  In a registry that files every handle under its own printed
    form, looking up the printed form of a handle the registry holds
    returns that very handle, without an error and without touching the
    registry.  (The printed form is taken to carry no white space at
    either end, as the whole input is trimmed before it is looked up.) *)
Theorem LookupType_printed_form (r : Registry) (t : Type_) :
  canonical String_ r -> held r t ->
  TrimSpace (String_ t) = String_ t ->
  LookupType' (String_ t) r = (inl t, r).
Proof.
  intros Hc [k Hk] Htrim. apply Hc in Hk.
  unfold LookupType. rewrite (parseType_whole _ t); [reflexivity |].
  now rewrite Htrim.
Qed.

(** C10.  ["int junk"] is no type, yet the parser answers with the type
    of the leading word: it hands back the rest [" junk"], and
    [LookupType] drops the rest and reports no error. *)
Theorem LookupType_trailing_junk :
  parseType' "int junk" registry0 = (Parsed " junk" TypeInt, registry0)
  /\ LookupType' "int junk" registry0 = (inl TypeInt, registry0).
Proof. split; reflexivity. Qed.


End ParserFacts.

(** ** The iterator *)

Lemma uvarintFrom_shrinks (b rest : list byte) (shift value : N) :
  uvarintFrom shift b = Uvarint value rest -> (length rest < length b)%nat.
Proof.
  revert shift value rest.
  induction b as [| x b IH]; intros shift value rest; cbn; [discriminate |].
  destruct (Byte.to_N x <? 128)%N.
  - intros [= _ <-]. lia.
  - destruct (uvarintFrom (shift + 7) b) as [hi rest' |] eqn:E; [| discriminate].
    intros [= _ <-]. apply IH in E. lia.
Qed.

Lemma Next_shrinks (it it' : Iter) (zv : option Bytes) (container : bool) :
  Next it = Elem zv container it' -> (length it' < length it)%nat.
Proof.
  unfold Next, uvarint.
  destruct (uvarintFrom 0 it) as [tag rest |] eqn:E; [| discriminate].
  apply uvarintFrom_shrinks in E.
  destruct (tag <? 2 ^ 64)%N; [| discriminate].
  destruct (tag =? 0)%N; [intros [= _ _ <-]; exact E |].
  destruct (tag =? 1)%N; [intros [= _ _ <-]; exact E |].
  destruct (length rest <? _)%nat; [discriminate |].
  intros [= _ _ <-]. rewrite length_skipn. lia.
Qed.

Lemma Done_length (it : Iter) : Done it = true <-> length it = 0%nat.
Proof. destruct it; cbn; split; intros H; congruence. Qed.

Lemma Yields_length (it : Iter) (els : list (option Bytes)) :
  Yields it els -> (length els <= length it)%nat.
Proof.
  induction 1 as [it Hd | it it' zv c els Hd Hn _ IH]; cbn; [lia |].
  apply Next_shrinks in Hn. lia.
Qed.

Lemma Fails_length (it : Iter) (n : nat) (err : error) :
  Fails it n err -> (n < length it)%nat.
Proof.
  induction 1 as [it err Hd Hn | it it' zv c n err Hd Hn _ IH].
  - destruct it; cbn in *; [discriminate | lia].
  - apply Next_shrinks in Hn. lia.
Qed.

(** Every body either iterates to its end or runs into an error. *)
Lemma Yields_or_Fails (it : Iter) :
  (exists els, Yields it els) \/ (exists n err, Fails it n err).
Proof.
  remember (length it) as m eqn:Hm. revert it Hm.
  induction m as [m IH] using lt_wf_ind. intros it ->.
  destruct (Done it) eqn:Hd; [left; exists []; now constructor |].
  destruct (Next it) as [zv c it' | err] eqn:Hn.
  - pose proof (Next_shrinks _ _ _ _ Hn) as Hlt.
    destruct (IH _ Hlt it' eq_refl) as [[els H] | (n & err & H)].
    + left. exists (zv :: els). econstructor; eassumption.
    + right. exists (S n), err. econstructor; eassumption.
  - right. exists 0%nat, err. now constructor.
Qed.

(** ** Container length *)

Lemma lengthLoop_Yields (it : Iter) (els : list (option Bytes)) :
  Yields it els ->
  forall (rounds : nat) (n : Z),
    (length els < rounds)%nat ->
    lengthLoop rounds it n = Some ((n + Z.of_nat (length els))%Z, None).
Proof.
  induction 1 as [it Hd | it it' zv c els Hd Hn _ IH]; intros rounds n Hr.
  - destruct rounds; [lia |]. cbn [lengthLoop]. rewrite Hd. cbn.
    now rewrite Z.add_0_r.
  - destruct rounds; [lia |]. cbn [lengthLoop]. rewrite Hd, Hn.
    rewrite IH by (cbn in Hr; lia). cbn [length].
    do 2 f_equal. lia.
Qed.

Lemma lengthLoop_Fails (it : Iter) (k : nat) (err : error) :
  Fails it k err ->
  forall (rounds : nat) (n : Z),
    (k < rounds)%nat ->
    lengthLoop rounds it n = Some ((-1)%Z, Some err).
Proof.
  induction 1 as [it err Hd Hn | it it' zv c k err Hd Hn _ IH]; intros rounds n Hr.
  - destruct rounds; [lia |]. cbn [lengthLoop]. now rewrite Hd, Hn.
  - destruct rounds; [lia |]. cbn [lengthLoop]. rewrite Hd, Hn.
    apply IH. lia.
Qed.

Lemma ContainerLength_elements (e : TypedEncoding) (body : Bytes)
    (els : list (option Bytes)) :
  isSetOrVector (Typ e) = true -> Body e = Some body -> Yields body els ->
  ContainerLength e = Some (Z.of_nat (length els), None).
Proof.
  intros Ht Hb Hy. pose proof (Yields_length _ _ Hy) as Hlen.
  unfold ContainerLength, IterOf. rewrite Hb.
  destruct (Typ e) as [[] |]; try discriminate Ht;
    now rewrite (lengthLoop_Yields _ _ Hy) by lia.
Qed.

Lemma ContainerLength_unset (e : TypedEncoding) :
  isSetOrVector (Typ e) = true -> Body e = None ->
  ContainerLength e = Some ((-1)%Z, Some ErrLenUnset).
Proof.
  intros Ht Hb. unfold ContainerLength. rewrite Hb.
  destruct (Typ e) as [[] |]; try discriminate Ht; reflexivity.
Qed.


(** A body whose iteration fails makes [ContainerLength] return the
    iterator's error. *)
Lemma ContainerLength_broken (e : TypedEncoding) (body : Bytes) (k : nat)
    (err : error) :
  isSetOrVector (Typ e) = true -> Body e = Some body -> Fails body k err ->
  ContainerLength e = Some ((-1)%Z, Some err).
Proof.
  intros Ht Hb Hf. pose proof (Fails_length _ _ _ Hf) as Hlen.
  unfold ContainerLength, IterOf. rewrite Hb.
  destruct (Typ e) as [[] |]; try discriminate Ht;
    now rewrite (lengthLoop_Fails _ _ _ Hf) by lia.
Qed.

(** The rounds given to the loop are always enough. *)
Lemma ContainerLength_returns (e : TypedEncoding) : is_Some (ContainerLength e).
Proof.
  destruct (isSetOrVector (Typ e)) eqn:Ht.
  - destruct (Body e) as [body |] eqn:Hb.
    + destruct (Yields_or_Fails body) as [[els H] | (k & err & H)].
      * rewrite (ContainerLength_elements _ _ _ Ht Hb H). eauto.
      * rewrite (ContainerLength_broken _ _ _ _ Ht Hb H). eauto.
    + rewrite (ContainerLength_unset _ Ht Hb). eauto.
  - unfold ContainerLength.
    destruct (Typ e) as [[] |]; try discriminate Ht; eauto.
Qed.


(** ** Walking to an element *)

Lemma walk_short (it : Iter) (els : list (option Bytes)) :
  Yields it els ->
  forall (rounds : nat) (v : option Bytes),
    (length els < rounds)%nat -> walk rounds it v = Stopped.
Proof.
  induction 1 as [it Hd | it it' zv c els Hd Hn _ IH]; intros rounds v Hr.
  - destruct rounds; [cbn in Hr; lia |]. cbn [walk]. now rewrite Hd.
  - destruct rounds; [lia |]. cbn [walk]. rewrite Hd, Hn.
    apply IH. cbn in Hr. lia.
Qed.

Lemma walk_reach (it : Iter) (els : list (option Bytes)) :
  Yields it els ->
  forall (n : nat) (v zv : option Bytes),
    els !! n = Some zv -> walk (S n) it v = Reached zv.
Proof.
  induction 1 as [it Hd | it it' zv' c els Hd Hn _ IH]; intros n v zv Hl.
  - discriminate Hl.
  - cbn [walk]. rewrite Hd, Hn. destruct n as [| n]; cbn in Hl.
    + now inversion Hl.
    + now apply IH.
Qed.

(** A walk that fails before its end stops as well. *)
Lemma walk_broken (it : Iter) (k : nat) (err : error) :
  Fails it k err ->
  forall (rounds : nat) (v : option Bytes),
    (k < rounds)%nat -> walk rounds it v = Stopped.
Proof.
  induction 1 as [it err Hd Hn | it it' zv c k err Hd Hn _ IH]; intros rounds v Hr.
  - destruct rounds; [lia |]. cbn [walk]. now rewrite Hd, Hn.
  - destruct rounds; [lia |]. cbn [walk]. rewrite Hd, Hn. apply IH. lia.
Qed.

(** ** Field reads *)

Lemma lut_ge (columns : list Column) (field : string) (k n : nat) :
  lut columns field k = Some n -> (k <= n)%nat.
Proof.
  revert k. induction columns as [| col columns IH]; intros k; cbn; [discriminate |].
  destruct (String.eqb (Name col) field); [intros [= <-]; lia |].
  intros H. apply IH in H. lia.
Qed.

Lemma scanColumns_absent (field : string) (e : Value) (columns : list Column) (k : nat) :
  lut columns field k = None -> scanColumns field e columns k = zero.
Proof.
  revert k. induction columns as [| col columns IH]; intros k; cbn; [reflexivity |].
  destruct (String.eqb (Name col) field); [discriminate | apply IH].
Qed.

Lemma scanColumns_found (field : string) (e : Value) (columns : list Column) (k n : nat) :
  lut columns field k = Some n ->
  exists col : Column,
    columns !! (n - k)%nat = Some col /\ Name col = field
    /\ scanColumns field e columns k =
       match walk (S n) (IterOf e) None with
       | Stopped => zero
       | Reached v => MkValue (Some (ColType col)) v
       end.
Proof.
  revert k. induction columns as [| col columns IH]; intros k; cbn; [discriminate |].
  destruct (String.eqb_spec (Name col) field) as [E | E].
  - intros [= <-]. exists col. rewrite Nat.sub_diag. auto.
  - intros H. pose proof (lut_ge _ _ _ _ H) as Hge.
    destruct (IH _ H) as (c & Hc & Hname & Hs). exists c.
    replace (n - k)%nat with (S (n - S k)) by lia. auto.
Qed.


Lemma fieldRead_apply_absent (field : string) (p : ptr) (columns : list Column)
    (key : string) (body : option Bytes) :
  lut columns field 0 = None ->
  fieldRead_apply field (MkValue (Some (TypeRecord p columns key)) body) = zero.
Proof. intros H. cbn. now apply scanColumns_absent. Qed.

Lemma fieldRead_apply_short (field : string) (p : ptr) (columns : list Column)
    (key : string) (body : option Bytes) (els : list (option Bytes)) (n : nat) :
  Yields (IterOf (MkValue (Some (TypeRecord p columns key)) body)) els ->
  lut columns field 0 = Some n -> (length els <= n)%nat ->
  fieldRead_apply field (MkValue (Some (TypeRecord p columns key)) body) = zero.
Proof.
  intros Hy Hl Hn. cbn [fieldRead_apply Typ].
  destruct (scanColumns_found field (MkValue (Some (TypeRecord p columns key)) body)
              _ _ _ Hl) as (c & _ & _ & ->).
  now rewrite (walk_short _ _ Hy) by lia.
Qed.

Lemma fieldRead_apply_unset (field : string) (e : Value) :
  Body e = None -> fieldRead_apply field e = zero.
Proof.
  intros Hb. unfold fieldRead_apply.
  destruct (Typ e) as [[| | | | | | | | | | | | | | | p columns key] |]; try reflexivity.
  destruct (lut columns field 0) as [n |] eqn:Hl.
  - destruct (scanColumns_found field e _ _ _ Hl) as (c & _ & _ & ->).
    unfold IterOf. rewrite Hb. reflexivity.
  - now apply scanColumns_absent.
Qed.

(** C9.  A record value whose body gives out before the column that is
    read: the walk finds the iterator done and the field read returns the
    zero value, nil type and nil body.  The read is a plain function of its
    arguments; no body makes it fail. *)
Theorem fieldRead_short_body (field : string) (p : ptr) (columns : list Column)
    (key : string) (body : option Bytes) (els : list (option Bytes)) (n : nat) :
  Yields (IterOf (MkValue (Some (TypeRecord p columns key)) body)) els ->
  (length els < length columns)%nat ->
  lut columns field 0 = Some n -> (length els <= n)%nat ->
  fieldRead_apply field (MkValue (Some (TypeRecord p columns key)) body) = zero
  /\ apply (fieldRead field) (MkValue (Some (TypeRecord p columns key)) body)
     = Some (MkValue None None).
Proof.
  intros Hy _ Hl Hn. cbn [apply].
  rewrite (fieldRead_apply_short _ _ _ _ _ _ _ Hy Hl Hn). now split.
Qed.

(** ** Indexing *)

Lemma indexLoop_past (it : Iter) (els : list (option Bytes)) :
  Yields it els ->
  forall (rounds : nat) (typ : Type_) (idx i : Z),
    (length els < rounds)%nat ->
    (idx < i \/ i + Z.of_nat (length els) <= idx)%Z ->
    indexLoop rounds typ idx i it = Some (zero, Some ErrIndex).
Proof.
  induction 1 as [it Hd | it it' zv c els Hd Hn _ IH]; intros rounds typ idx i Hr Hi.
  - destruct rounds; [cbn in Hr; lia |]. cbn [indexLoop]. now rewrite Hd.
  - destruct rounds; [lia |]. cbn [indexLoop]. rewrite Hd, Hn.
    cbn [length] in Hi, Hr.
    destruct (Z.eqb_spec i idx) as [E | E]; [lia |].
    apply IH; lia.
Qed.

Lemma indexLoop_hit (it : Iter) (els : list (option Bytes)) :
  Yields it els ->
  forall (rounds : nat) (typ : Type_) (idx i : Z) (zv : option Bytes),
    (length els < rounds)%nat -> (i <= idx)%Z ->
    els !! Z.to_nat (idx - i) = Some zv ->
    indexLoop rounds typ idx i it = Some (MkTypedEncoding (Some typ) zv, None).
Proof.
  induction 1 as [it Hd | it it' zv' c els Hd Hn _ IH];
    intros rounds typ idx i zv Hr Hi Hl.
  - discriminate Hl.
  - destruct rounds; [lia |]. cbn [indexLoop]. rewrite Hd, Hn.
    cbn [length] in Hr.
    destruct (Z.eqb_spec i idx) as [E | E].
    + subst. rewrite Z.sub_diag in Hl. cbn in Hl. now inversion Hl.
    + apply IH; [lia | lia |].
      replace (Z.to_nat (idx - i)) with (S (Z.to_nat (idx - (i + 1)))) in Hl by lia.
      exact Hl.
Qed.





Lemma arrayIndex_apply_non_vector (idx : Z) (e : Value) :
  isVector (Typ e) = false -> arrayIndex_apply idx e = Some zero.
Proof.
  intros Ht. unfold arrayIndex_apply, ArrayIndex, VectorIndex.
  destruct (Typ e) as [[] |]; try discriminate Ht; reflexivity.
Qed.

Lemma arrayIndex_apply_negative (idx : Z) (p : ptr) (typ : Type_) (body : option Bytes) :
  (idx < 0)%Z ->
  arrayIndex_apply idx (MkValue (Some (TypeVector p typ)) body)
  = Some (MkValue (Some typ) None).
Proof.
  intros Hi. unfold arrayIndex_apply, ArrayIndex, VectorIndex. cbn.
  destruct (Z.ltb_spec idx 0); [reflexivity | lia].
Qed.

Lemma arrayIndex_apply_past (idx : Z) (p : ptr) (typ : Type_) (body : option Bytes)
    (els : list (option Bytes)) :
  Yields (IterOf (MkValue (Some (TypeVector p typ)) body)) els ->
  (Z.of_nat (length els) <= idx)%Z ->
  arrayIndex_apply idx (MkValue (Some (TypeVector p typ)) body)
  = Some (MkValue (Some typ) None).
Proof.
  intros Hy Hi. pose proof (Yields_length _ _ Hy) as Hlen.
  unfold arrayIndex_apply, ArrayIndex, VectorIndex. cbn [Typ].
  destruct (Z.ltb_spec idx 0); [lia |].
  now rewrite (indexLoop_past _ _ Hy) by lia.
Qed.

Lemma arrayIndex_apply_hit (idx : Z) (p : ptr) (typ : Type_) (body : option Bytes)
    (els : list (option Bytes)) (zv : option Bytes) :
  Yields (IterOf (MkValue (Some (TypeVector p typ)) body)) els ->
  (0 <= idx)%Z -> els !! Z.to_nat idx = Some zv ->
  arrayIndex_apply idx (MkValue (Some (TypeVector p typ)) body)
  = Some (MkValue (Some typ) zv).
Proof.
  intros Hy Hi Hl. pose proof (Yields_length _ _ Hy) as Hlen.
  unfold arrayIndex_apply, ArrayIndex, VectorIndex. cbn [Typ].
  destruct (Z.ltb_spec idx 0); [lia |].
  rewrite (indexLoop_hit _ _ Hy _ _ _ _ zv); [reflexivity | lia | lia |].
  now rewrite Z.sub_0_r.
Qed.

(** C4, as the code has it.  Only a vector can be indexed.  On a vector,
    an index at or past the number of elements of the body, and every
    negative index whatever the body, gives the unset value of the element
    type; an index within the body gives that element.  On any other type, a
    set included, the index gives the zero value, nil type and nil body. *)
Theorem arrayIndex_apply_cases :
  (forall (idx : Z) (p : ptr) (typ : Type_) (body : option Bytes)
          (els : list (option Bytes)),
      Yields (IterOf (MkValue (Some (TypeVector p typ)) body)) els ->
      (Z.of_nat (length els) <= idx)%Z ->
      apply (arrayIndex idx) (MkValue (Some (TypeVector p typ)) body)
      = Some (MkValue (Some typ) None))
  /\ (forall (idx : Z) (p : ptr) (typ : Type_) (body : option Bytes),
         (idx < 0)%Z ->
         apply (arrayIndex idx) (MkValue (Some (TypeVector p typ)) body)
         = Some (MkValue (Some typ) None))
  /\ (forall (idx : Z) (p : ptr) (typ : Type_) (body : option Bytes)
             (els : list (option Bytes)) (zv : option Bytes),
         Yields (IterOf (MkValue (Some (TypeVector p typ)) body)) els ->
         (0 <= idx)%Z -> els !! Z.to_nat idx = Some zv ->
         apply (arrayIndex idx) (MkValue (Some (TypeVector p typ)) body)
         = Some (MkValue (Some typ) zv))
  /\ (forall (idx : Z) (e : Value),
         isVector (Typ e) = false ->
         apply (arrayIndex idx) e = Some (MkValue None None)).
Proof.
  split; [exact arrayIndex_apply_past |].
  split; [exact arrayIndex_apply_negative |].
  split; [exact arrayIndex_apply_hit | exact arrayIndex_apply_non_vector].
Qed.

(** ** The resolver *)






(** C3, as the code has it.  In the record [[NorthPole;[N;90;]-;]] the
    path [long] gives the unset value of type [LL], and the path
    [long.degree] gives the zero value, nil type and nil body: a field read
    on a value without a body stops at once.  ([lat.degree] is the double
    90.) *)
Theorem unset_record_field :
  evaluate (Scenario.path "long" "degree") Scenario.northPole
  = Some (inl (MkValue None None))
  /\ evaluate (FieldRead "long") Scenario.northPole
     = Some (inl (MkValue (Some Scenario.LL) None))
  /\ evaluate (Scenario.path "lat" "degree") Scenario.northPole
     = Some (inl (MkValue (Some TypeDouble) (Some Scenario.ninety)))
  /\ (forall (field : string) (e : Value),
         Body e = None -> apply (fieldRead field) e = Some (MkValue None None)).
Proof.
  split; [vm_compute; reflexivity |].
  split; [vm_compute; reflexivity |].
  split; [vm_compute; reflexivity |].
  intros field e Hb. cbn. now rewrite fieldRead_apply_unset.
Qed.

Lemma unset_record_field_witness :
  Body (MkValue (Some Scenario.LL) None) = None
  /\ apply (fieldRead "degree") (MkValue (Some Scenario.LL) None)
     = Some (MkValue None None).
Proof.
  split; [reflexivity |].
  destruct unset_record_field as (_ & _ & _ & H). apply H. reflexivity.
Defined.

(** C3 as stated fails: the result of [long.degree] is not the unset
    value of the element type. *)
Lemma unset_record_field_not_typed :
  evaluate (Scenario.path "long" "degree") Scenario.northPole
  <> Some (inl (MkValue (Some TypeDouble) None)).
Proof. vm_compute. discriminate. Qed.

(** C4 as stated fails on a set: the index is past the two elements of
    [s], and the result is the zero value, not the unset string. *)
Lemma index_on_set_not_typed :
  evaluate (Scenario.index "s" "5") Scenario.tags = Some (inl (MkValue None None))
  /\ evaluate (Scenario.index "s" "5") Scenario.tags
     <> Some (inl (MkValue (Some TypeString) None)).
Proof. split; vm_compute; [reflexivity | discriminate]. Qed.




(** ** The package as a whole *)

Lemma typeMap0_inv (k : string) (t : Type_) :
  typeMap0 !! k = Some t -> (k, t) ∈ primitiveNames.
Proof.
  intros H. apply (elem_of_list_to_map_2 (M := gmap string)). exact H.
Qed.

Lemma canonical_registry0 : canonical SpecGrammar.typeString registry0.
Proof.
  intros k t H. apply typeMap0_inv in H. unfold primitiveNames in H.
  repeat (apply elem_of_cons in H as [[= -> ->] | H]; [reflexivity |]).
  now apply elem_of_nil in H.
Qed.

Lemma typeString_record (p : ptr) (columns : list Column) :
  SpecGrammar.typeString (TypeRecord p columns (SpecGrammar.recordString columns))
  = SpecGrammar.recordString columns.
Proof. reflexivity. Qed.


Lemma LookupType_printed_form_witness :
  let vec := TypeVector 1%positive TypeInt in
  let r1 := snd (LookupVectorType SpecGrammar.typeString TypeInt registry0) in
  canonical SpecGrammar.typeString r1
  /\ held r1 vec
  /\ TrimSpace (SpecGrammar.typeString vec) = SpecGrammar.typeString vec
  /\ SpecGrammar.lookupType (SpecGrammar.typeString vec) r1 = (inl vec, r1).
Proof.
  intros vec r1.
  assert (Hc : canonical SpecGrammar.typeString r1).
  { apply addType_canonical, new_canonical, canonical_registry0. }
  assert (Hh : held r1 vec) by (exists "vector[int]"; reflexivity).
  split; [exact Hc |]. split; [exact Hh |]. split; [reflexivity |].
  apply LookupType_printed_form; [exact Hc | exact Hh | reflexivity].
Defined.




Lemma fieldRead_short_body_witness :
  Yields (IterOf Scenario.short) [Some (Scenario.text "1")]
  /\ lut Scenario.abColumns "b" 0 = Some 1%nat
  /\ fieldRead_apply "b" Scenario.short = zero
  /\ apply (fieldRead "b") Scenario.short = Some (MkValue None None).
Proof.
  assert (Hy : Yields (IterOf Scenario.short) [Some (Scenario.text "1")]) by yields.
  split; [exact Hy |]. split; [reflexivity |].
  apply (fieldRead_short_body "b" 6%positive Scenario.abColumns _ _ _ 1%nat Hy);
    [cbn; lia | reflexivity | cbn; lia].
Defined.

Lemma arrayIndex_apply_cases_witness :
  let e := MkValue (Some (TypeVector 4%positive TypeString)) (Some Scenario.ab) in
  Yields (IterOf e) [Some (Scenario.text "a"); Some (Scenario.text "b")]
  /\ apply (arrayIndex 5) e = Some (MkValue (Some TypeString) None).
Proof.
  intros e.
  assert (Hy : Yields (IterOf e) [Some (Scenario.text "a"); Some (Scenario.text "b")])
    by yields.
  split; [exact Hy |].
  destruct arrayIndex_apply_cases as (H & _).
  apply (H 5%Z 4%positive TypeString (Some Scenario.ab) _ Hy). cbn. lia.
Defined.

(** ** Printed forms are trimmed *)

Lemma append_assoc (x y z : string) : (x +:+ y) +:+ z = x +:+ y +:+ z.
Proof.
  induction x as [| c x IH]; [reflexivity |].
  rewrite !append_cons. now rewrite IH.
Qed.

Lemma append_nil_r (x : string) : x +:+ EmptyString = x.
Proof.
  induction x as [| c x IH]; [reflexivity |]. rewrite append_cons. now rewrite IH.
Qed.

Lemma rev_append (x y : string) :
  GoStrings.rev (x +:+ y) = GoStrings.rev y +:+ GoStrings.rev x.
Proof.
  induction x as [| c x IH].
  - change (EmptyString +:+ y) with y. cbn. now rewrite append_nil_r.
  - rewrite append_cons. cbn. rewrite IH. apply append_assoc.
Qed.

Lemma rev_rev (x : string) : GoStrings.rev (GoStrings.rev x) = x.
Proof.
  induction x as [| c x IH]; [reflexivity |].
  cbn. rewrite rev_append, IH. reflexivity.
Qed.

Lemma dropAny_noLead (ps : list string) (c : ascii) (x : string) :
  noLead ps c = true -> dropAny ps (String c x) = None.
Proof.
  induction ps as [| p ps IH]; cbn; [reflexivity |].
  intros H. apply andb_prop in H as [Hp Hps].
  destruct p as [| a p]; [discriminate |]. cbn.
  apply negb_true_iff in Hp. rewrite Hp. now apply IH.
Qed.

Lemma trimLeading_noLead (fuel : nat) (ps : list string) (c : ascii) (x : string) :
  noLead ps c = true -> trimLeading fuel ps (String c x) = String c x.
Proof.
  intros H. destruct fuel; cbn [trimLeading]; [reflexivity |].
  now rewrite dropAny_noLead.
Qed.

(** A string that starts and ends with bytes no white space starts or ends
    with is left alone. *)
Lemma TrimSpace_inner (c d : ascii) (x : string) :
  noLead spaces c = true -> noLead (map GoStrings.rev spaces) d = true ->
  TrimSpace (String c (x +:+ String d EmptyString))
  = String c (x +:+ String d EmptyString).
Proof.
  intros Hc Hd. unfold TrimSpace, TrimLeft, TrimRight.
  rewrite (trimLeading_noLead _ _ _ _ Hc).
  set (s := String c (x +:+ String d EmptyString)).
  assert (Hr : GoStrings.rev s = String d (GoStrings.rev (String c x))).
  { unfold s. rewrite <- append_cons, rev_append. reflexivity. }
  rewrite Hr, (trimLeading_noLead _ _ _ _ Hd), <- Hr. apply rev_rev.
Qed.

Lemma TrimSpace_bracketed (c : ascii) (pre mid : string) :
  noLead spaces c = true ->
  TrimSpace (String c pre +:+ mid +:+ "]") = String c pre +:+ mid +:+ "]".
Proof.
  intros Hc. rewrite <- append_assoc, append_cons.
  now apply TrimSpace_inner.
Qed.

Lemma typeString_trimmed (t : Type_) :
  TrimSpace (SpecGrammar.typeString t) = SpecGrammar.typeString t.
Proof.
  destruct t as [| | | | | | | | | | | | | p inner | p typ | p columns key];
    try reflexivity; cbn [SpecGrammar.typeString].
  - now apply (TrimSpace_bracketed "s" "et[").
  - now apply (TrimSpace_bracketed "v" "ector[").
  - now apply (TrimSpace_bracketed "r" "ecord[").
Qed.

(** ** The registry stays canonical under the parser *)

Section ParserInvariant.

Variable String_ : Type_ -> string.
Variables parseSetTypeBody parseVectorTypeBody parseRecordTypeBody :
  string -> Registry -> parsed * Registry.

Local Abbreviation parseType' :=
  (parseType String_ parseSetTypeBody parseVectorTypeBody parseRecordTypeBody).

Local Abbreviation keeps' := (keeps String_).

Lemma internBody_keeps (body : string -> Registry -> parsed * Registry) :
  keeps' body -> keeps' (internBody String_ body).
Proof.
  intros Hb in_ r Hc. unfold internBody. specialize (Hb in_ r Hc).
  destruct (body in_ r) as [[rest t | err] r']; cbn in *; [| exact Hb].
  pose proof (addType_canonical String_ t r' Hb) as H.
  now destruct (addType String_ t r').
Qed.

Lemma parseType_keeps :
  keeps' parseSetTypeBody -> keeps' parseVectorTypeBody -> keeps' parseRecordTypeBody ->
  keeps' parseType'.
Proof.
  intros Hs Hv Hr in_ r Hc. unfold parseType.
  destruct (typeMap r !! TrimSpace in_); [exact Hc |].
  destruct (parseWord in_) as [rest word].
  destruct (String.eqb word EmptyString); [exact Hc |].
  destruct (typeMap r !! word); [exact Hc |].
  destruct (String.eqb word "set"); [now apply internBody_keeps |].
  destruct (String.eqb word "vector"); [now apply internBody_keeps |].
  destruct (String.eqb word "record"); [now apply internBody_keeps | exact Hc].
Qed.

Lemma internBody_held (body : string -> Registry -> parsed * Registry)
    (in_ rest : string) (t : Type_) (r r' : Registry) :
  internBody String_ body in_ r = (Parsed rest t, r') -> held r' t.
Proof.
  unfold internBody.
  destruct (body in_ r) as [[rest0 t0 | err] r0]; [| discriminate].
  pose proof (addType_held String_ t0 r0) as H.
  destruct (addType String_ t0 r0) as [h r1]. now intros [= _ <- <-].
Qed.

(** Whatever the parser returns is held by the registry it leaves. *)
Lemma parseType_held (in_ rest : string) (t : Type_) (r r' : Registry) :
  parseType' in_ r = (Parsed rest t, r') -> held r' t.
Proof.
  unfold parseType.
  destruct (typeMap r !! TrimSpace in_) as [t0 |] eqn:E0.
  { intros [= _ <- <-]. now exists (TrimSpace in_). }
  destruct (parseWord in_) as [rest0 word].
  destruct (String.eqb word EmptyString); [discriminate |].
  destruct (typeMap r !! word) as [t1 |] eqn:E1.
  { intros [= _ <- <-]. now exists word. }
  destruct (String.eqb word "set"); [apply internBody_held |].
  destruct (String.eqb word "vector"); [apply internBody_held |].
  destruct (String.eqb word "record"); [apply internBody_held | discriminate].
Qed.

End ParserInvariant.

Section SpecGrammarInvariant.

Variable parseMember : string -> Registry -> parsed * Registry.
Hypothesis parseMember_keeps : keeps SpecGrammar.typeString parseMember.

Lemma parseSetTypeBody_keeps :
  keeps SpecGrammar.typeString (SpecGrammar.parseSetTypeBody parseMember).
Proof.
  intros in_ r Hc. unfold SpecGrammar.parseSetTypeBody.
  destruct (SpecGrammar.expect "[" in_) as [in1 |]; [| exact Hc].
  specialize (parseMember_keeps in1 r Hc).
  destruct (parseMember in1 r) as [[rest inner | err] r1]; cbn in *;
    [| assumption].
  destruct (SpecGrammar.expect "]" rest); [| assumption].
  destruct (SpecGrammar.isPrimitive inner); assumption.
Qed.

Lemma parseVectorTypeBody_keeps :
  keeps SpecGrammar.typeString (SpecGrammar.parseVectorTypeBody parseMember).
Proof.
  intros in_ r Hc. unfold SpecGrammar.parseVectorTypeBody.
  destruct (SpecGrammar.expect "[" in_) as [in1 |]; [| exact Hc].
  specialize (parseMember_keeps in1 r Hc).
  destruct (parseMember in1 r) as [[rest inner | err] r1]; cbn in *;
    [| assumption].
  destruct (SpecGrammar.expect "]" rest); assumption.
Qed.

Lemma parseColumns_keeps (fuel : nat) (in_ : string) (columns : list Column)
    (r : Registry) :
  canonical SpecGrammar.typeString r ->
  canonical SpecGrammar.typeString
            (snd (SpecGrammar.parseColumns parseMember fuel in_ columns r)).
Proof.
  revert in_ columns r.
  induction fuel as [| fuel IH]; intros in_ columns r Hc; cbn; [exact Hc |].
  destruct (parseWord in_) as [rest name].
  destruct (String.eqb name EmptyString); [exact Hc |].
  destruct (SpecGrammar.hasColumn name columns); [exact Hc |].
  destruct (SpecGrammar.expect ":" rest) as [rest1 |]; [| exact Hc].
  pose proof (parseMember_keeps rest1 r Hc) as Hm.
  destruct (parseMember rest1 r) as [[rest2 typ | err] r1]; cbn in *;
    [| assumption].
  destruct (SpecGrammar.expect "," rest2); [now apply IH |].
  destruct (SpecGrammar.expect "]" rest2); assumption.
Qed.

Lemma parseRecordTypeBody_keeps :
  keeps SpecGrammar.typeString (SpecGrammar.parseRecordTypeBody parseMember).
Proof.
  intros in_ r Hc. unfold SpecGrammar.parseRecordTypeBody.
  destruct (SpecGrammar.expect "[" in_) as [in1 |]; [| exact Hc].
  destruct (SpecGrammar.expect "]" in1); [exact Hc |].
  pose proof (parseColumns_keeps (String.length in1) in1 [] r Hc) as Hp.
  destruct (SpecGrammar.parseColumns parseMember (String.length in1) in1 [] r)
    as [[[rest columns] | err] r1]; cbn in *; assumption.
Qed.

End SpecGrammarInvariant.

Lemma parseTypeAt_keeps (depth : nat) :
  keeps SpecGrammar.typeString (SpecGrammar.parseTypeAt depth).
Proof.
  induction depth as [| d IH]; intros in_ r Hc; [exact Hc |].
  cbn [SpecGrammar.parseTypeAt].
  apply parseType_keeps; [| | | exact Hc].
  - now apply parseSetTypeBody_keeps.
  - now apply parseVectorTypeBody_keeps.
  - now apply parseRecordTypeBody_keeps.
Qed.

(** Parsing and printing on the whole package: a type the parser returns
    is found again, as the same handle, under its printed form. *)
Lemma lookupType_round_trip (in_ : string) (t : Type_) (r r' : Registry) :
  canonical SpecGrammar.typeString r ->
  SpecGrammar.lookupType in_ r = (inl t, r') ->
  SpecGrammar.lookupType (SpecGrammar.typeString t) r' = (inl t, r')
  /\ canonical SpecGrammar.typeString r'.
Proof.
  intros Hc. unfold SpecGrammar.lookupType, LookupType.
  destruct (parseType _ _ _ _ in_ r) as [[rest t0 | err] r0] eqn:E; [| discriminate].
  intros [= <- <-].
  assert (Hc0 : canonical SpecGrammar.typeString r0).
  { change r0 with (snd (Parsed rest t0, r0)). rewrite <- E.
    apply parseType_keeps; [| | | exact Hc].
    - apply parseSetTypeBody_keeps, parseTypeAt_keeps.
    - apply parseVectorTypeBody_keeps, parseTypeAt_keeps.
    - apply parseRecordTypeBody_keeps, parseTypeAt_keeps. }
  split; [| exact Hc0].
  apply parseType_held in E as [k Hk]. apply Hc0 in Hk.
  rewrite (parseType_whole _ _ _ _ _ t0); [reflexivity |].
  now rewrite typeString_trimmed.
Qed.

(** ** One object per address *)

Section Allocation.

Variable String_ : Type_ -> string.
Variable recordString : list Column -> string.

Lemma held_insert (key : string) (t h : Type_) (m : gmap string Type_) (n n' : ptr) :
  held (MkRegistry (<[key := t]> m) n) h -> h = t \/ held (MkRegistry m n') h.
Proof.
  intros [k Hk]. cbn in Hk.
  apply lookup_insert_Some in Hk as [[_ <-] | [_ Hk]]; [now left |].
  right. now exists k.
Qed.

Lemma identityOf_address (t1 t2 : Type_) :
  identityOf t1 = identityOf t2 -> address t1 = address t2.
Proof. destruct t1, t2; cbn; congruence. Qed.

(** Filing a newly allocated object keeps the heap in order. *)
Lemma insert_fresh (key : string) (t : Type_) (r : Registry) :
  address t = Some (nextPtr r) -> consistent r -> allocated r ->
  consistent (MkRegistry (<[key := t]> (typeMap r)) (Pos.succ (nextPtr r)))
  /\ allocated (MkRegistry (<[key := t]> (typeMap r)) (Pos.succ (nextPtr r))).
Proof.
  intros Ha Hk Hl.
  assert (Hold : forall h, held (MkRegistry (typeMap r) (nextPtr r)) h -> held r h)
    by (intros h [k Hh]; now exists k).
  split.
  - intros h1 h2 H1 H2 Hid.
    apply (held_insert _ _ _ _ _ (nextPtr r)) in H1 as [-> | H1];
      apply (held_insert _ _ _ _ _ (nextPtr r)) in H2 as [-> | H2];
      try reflexivity.
    + apply identityOf_address in Hid. rewrite Ha in Hid.
      symmetry in Hid. apply (Hl _ _ (Hold _ H2)) in Hid. lia.
    + apply identityOf_address in Hid. rewrite Ha in Hid.
      apply (Hl _ _ (Hold _ H1)) in Hid. lia.
    + apply Hk; auto.
  - intros h p Hh Hp. cbn.
    apply (held_insert _ _ _ _ _ (nextPtr r)) in Hh as [-> | Hh].
    + rewrite Ha in Hp. inversion Hp. lia.
    + pose proof (Hl _ _ (Hold _ Hh) Hp). lia.
Qed.

Lemma new_unfiled (r : Registry) :
  consistent r -> allocated r ->
  consistent (MkRegistry (typeMap r) (Pos.succ (nextPtr r)))
  /\ allocated (MkRegistry (typeMap r) (Pos.succ (nextPtr r))).
Proof.
  intros Hk Hl. split.
  - intros h1 h2 [k1 H1] [k2 H2]. apply Hk; [now exists k1 | now exists k2].
  - intros h p [k Hh] Hp. cbn. pose proof (Hl h p (ex_intro _ k Hh) Hp). lia.
Qed.

Lemma LookupVectorType_heap (innerType : Type_) (r : Registry) :
  consistent r -> allocated r ->
  consistent (snd (LookupVectorType String_ innerType r))
  /\ allocated (snd (LookupVectorType String_ innerType r)).
Proof.
  intros Hk Hl. unfold LookupVectorType, new, addType. cbn.
  destruct (typeMap r !! String_ (TypeVector (nextPtr r) innerType)); cbn.
  - now apply new_unfiled.
  - now apply insert_fresh.
Qed.

Lemma LookupTypeRecord_heap (columns : list Column) (r : Registry) :
  consistent r -> allocated r ->
  consistent (snd (LookupTypeRecord recordString columns r))
  /\ allocated (snd (LookupTypeRecord recordString columns r)).
Proof.
  intros Hk Hl. unfold LookupTypeRecord.
  destruct (typeMap r !! recordString columns); cbn; [now split |].
  now apply insert_fresh.
Qed.

End Allocation.

Lemma held_registry0 (t : Type_) :
  held registry0 t -> SpecGrammar.isPrimitive t = true.
Proof.
  intros [k H]. apply typeMap0_inv in H. unfold primitiveNames in H.
  repeat (apply elem_of_cons in H as [[= -> ->] | H]; [reflexivity |]).
  now apply elem_of_nil in H.
Qed.

Lemma heap_registry0 : consistent registry0 /\ allocated registry0.
Proof.
  split.
  - intros t1 t2 H1 H2. apply held_registry0 in H1, H2.
    destruct t1; try discriminate H1; destruct t2; try discriminate H2;
      cbn; congruence.
  - intros t p H. apply held_registry0 in H.
    destruct t; try discriminate H; discriminate.
Qed.

(** * Further properties *)

(** ** Iteration in full *)

Lemma Iterates_exists (it : Iter) : exists els fin, Iterates it els fin.
Proof.
  remember (length it) as m eqn:Hm. revert it Hm.
  induction m as [m IH] using lt_wf_ind. intros it ->.
  destruct (Done it) eqn:Hd; [exists [], None; now constructor |].
  destruct (Next it) as [zv c it' | err] eqn:Hn.
  - pose proof (Next_shrinks _ _ _ _ Hn) as Hlt.
    destruct (IH _ Hlt it' eq_refl) as (els & fin & H).
    exists (zv :: els), fin. econstructor; eassumption.
  - exists [], (Some err). now constructor.
Qed.

Lemma Iterates_length (it : Iter) (els : list (option Bytes)) (fin : option error) :
  Iterates it els fin -> (length els <= length it)%nat.
Proof.
  induction 1 as [it Hd | it err Hd Hn | it it' zv c els fin Hd Hn _ IH];
    cbn; try lia.
  apply Next_shrinks in Hn. lia.
Qed.

Lemma Iterates_unset (els : list (option Bytes)) (fin : option error) :
  Iterates [] els fin -> els = [] /\ fin = None.
Proof. inversion 1; subst; cbn in *; try discriminate. now split. Qed.

Lemma Iterates_Yields (it : Iter) (els : list (option Bytes)) :
  Iterates it els None <-> Yields it els.
Proof.
  split.
  - remember None as fin eqn:Hf.
    induction 1 as [it Hd | it err Hd Hn | it it' zv c els fin Hd Hn _ IH];
      [now constructor | discriminate |].
    econstructor; eauto.
  - induction 1 as [it Hd | it it' zv c els Hd Hn _ IH];
      [now constructor | econstructor; eauto].
Qed.

Lemma lengthLoop_Iterates (it : Iter) (els : list (option Bytes)) (fin : option error) :
  Iterates it els fin ->
  forall (rounds : nat) (n : Z),
    (length els < rounds)%nat ->
    lengthLoop rounds it n
    = Some (match fin with
            | None => ((n + Z.of_nat (length els))%Z, None)
            | Some err => ((-1)%Z, Some err)
            end).
Proof.
  induction 1 as [it Hd | it err Hd Hn | it it' zv c els fin Hd Hn _ IH];
    intros rounds n Hr; (destruct rounds; [cbn in Hr; lia |]); cbn [lengthLoop].
  - rewrite Hd. cbn. now rewrite Z.add_0_r.
  - now rewrite Hd, Hn.
  - rewrite Hd, Hn, IH by (cbn in Hr; lia).
    destruct fin; [reflexivity |]. cbn [length]. do 2 f_equal. lia.
Qed.

Lemma elementsLoop_Iterates (it : Iter) (els : list (option Bytes)) (fin : option error) :
  Iterates it els fin ->
  forall (rounds : nat) (innerType : option Type_) (elements : list TypedEncoding),
    (length els < rounds)%nat ->
    elementsLoop rounds innerType it elements
    = Some (match fin with
            | None => (elements ++ typed innerType els, None)
            | Some err => ([], Some err)
            end).
Proof.
  induction 1 as [it Hd | it err Hd Hn | it it' zv c els fin Hd Hn _ IH];
    intros rounds ty acc Hr; (destruct rounds; [cbn in Hr; lia |]);
    cbn [elementsLoop].
  - rewrite Hd. cbn. now rewrite app_nil_r.
  - now rewrite Hd, Hn.
  - rewrite Hd, Hn, IH by (cbn in Hr; lia).
    destruct fin; [reflexivity |]. cbn. now rewrite <- app_assoc.
Qed.

Lemma containsLoop_Iterates (it : Iter) (els : list (option Bytes)) (fin : option error) :
  Iterates it els fin ->
  forall (rounds : nat) (compare : Predicate) (elType : option Type_),
    (length els < rounds)%nat ->
    containsLoop rounds compare elType it = Some (existsb compare (typed elType els)).
Proof.
  induction 1 as [it Hd | it err Hd Hn | it it' zv c els fin Hd Hn _ IH];
    intros rounds compare ty Hr; (destruct rounds; [cbn in Hr; lia |]);
    cbn [containsLoop].
  - now rewrite Hd.
  - now rewrite Hd, Hn.
  - rewrite Hd, Hn. cbn.
    destruct (compare (MkTypedEncoding ty zv)); [reflexivity |].
    apply IH. cbn in Hr. lia.
Qed.

Lemma indexLoop_Iterates (it : Iter) (els : list (option Bytes)) (fin : option error) :
  Iterates it els fin ->
  forall (rounds : nat) (typ : Type_) (idx i : Z),
    (length els < rounds)%nat -> (i <= idx)%Z ->
    indexLoop rounds typ idx i it
    = Some (match els !! Z.to_nat (idx - i) with
            | Some zv => (MkTypedEncoding (Some typ) zv, None)
            | None => (zero, Some (default ErrIndex fin))
            end).
Proof.
  induction 1 as [it Hd | it err Hd Hn | it it' zv c els fin Hd Hn _ IH];
    intros rounds typ idx i Hr Hi; (destruct rounds; [cbn in Hr; lia |]);
    cbn [indexLoop].
  - now rewrite Hd.
  - now rewrite Hd, Hn.
  - rewrite Hd, Hn. destruct (Z.eqb_spec i idx) as [E | E].
    + subst. now rewrite Z.sub_diag.
    + rewrite IH by (cbn in Hr; lia).
      replace (Z.to_nat (idx - i)) with (S (Z.to_nat (idx - (i + 1)))) by lia.
      reflexivity.
Qed.

Lemma walk_Iterates (it : Iter) (els : list (option Bytes)) (fin : option error) :
  Iterates it els fin ->
  forall (n : nat) (v : option Bytes),
    walk (S n) it v = match els !! n with
                      | Some zv => Reached zv
                      | None => Stopped
                      end.
Proof.
  induction 1 as [it Hd | it err Hd Hn | it it' zv c els fin Hd Hn _ IH];
    intros n v; cbn [walk].
  - now rewrite Hd.
  - now rewrite Hd, Hn.
  - rewrite Hd, Hn. destruct n as [| n]; [reflexivity |]. apply IH.
Qed.

(** ** Elements, length, index, membership *)

Lemma Elements_iterates (e : TypedEncoding) (els : list (option Bytes))
    (fin : option error) :
  Iterates (IterOf e) els fin ->
  Elements e
  = Some (match InnerType (Typ e), fin with
          | None, _ => ([], Some ErrNotContainer)
          | Some innerType, None => (typed (Some innerType) els, None)
          | Some _, Some err => ([], Some err)
          end).
Proof.
  intros Hi. pose proof (Iterates_length _ _ _ Hi) as Hlen. unfold Elements.
  destruct (InnerType (Typ e)) as [inner |]; [| reflexivity].
  rewrite (elementsLoop_Iterates _ _ _ Hi) by lia. now destruct fin.
Qed.

(** X1.  [Elements] on a set or a vector gives one typed encoding per
    element of the body, each with the inner type, in the order of the body;
    when a [Next] fails it gives that error and no elements.  On any other
    type, a record included, it gives [ErrNotContainer]. *)
Theorem Elements_cases (e : TypedEncoding) (els : list (option Bytes))
    (fin : option error) :
  Iterates (IterOf e) els fin ->
  Elements e
  = Some (match InnerType (Typ e), fin with
          | None, _ => ([], Some ErrNotContainer)
          | Some innerType, None => (typed (Some innerType) els, None)
          | Some _, Some err => ([], Some err)
          end).
Proof. apply Elements_iterates. Qed.

(** X2.  On an unset set or vector, a nil body, [Elements] returns no
    elements and no error, [Contains] answers false and [VectorIndex] is out
    of bounds at every index, where [ContainerLength] fails with
    [ErrLenUnset]. *)
Theorem unset_container (e : TypedEncoding) :
  isSetOrVector (Typ e) = true -> Body e = None ->
  Elements e = Some ([], None)
  /\ (forall compare : Predicate, Contains compare e = Some false)
  /\ (forall idx : Z, isVector (Typ e) = true ->
                      VectorIndex e idx = Some (zero, Some ErrIndex))
  /\ ContainerLength e = Some ((-1)%Z, Some ErrLenUnset).
Proof.
  intros Ht Hb.
  assert (Hit : IterOf e = []) by (unfold IterOf; now rewrite Hb).
  split; [| split; [| split]].
  - unfold Elements. rewrite Hit.
    destruct (Typ e) as [[] |]; try discriminate Ht; reflexivity.
  - intros compare. unfold Contains. rewrite Hit.
    destruct (Typ e) as [[] |]; try discriminate Ht; reflexivity.
  - intros idx Hv. unfold VectorIndex. rewrite Hit.
    destruct (Typ e) as [[] |]; try discriminate Hv. cbn.
    now destruct (idx <? 0)%Z.
  - now apply ContainerLength_unset.
Qed.

(** X3.  When [Elements] succeeds on a value with a body, [ContainerLength]
    returns the number of elements it returned, and the other way round. *)
Theorem Elements_ContainerLength (e : TypedEncoding) (body : Bytes) :
  Body e = Some body ->
  (forall elements : list TypedEncoding,
      Elements e = Some (elements, None) ->
      ContainerLength e = Some (Z.of_nat (length elements), None))
  /\ (forall n : Z,
         ContainerLength e = Some (n, None) ->
         exists elements : list TypedEncoding,
           Elements e = Some (elements, None) /\ Z.of_nat (length elements) = n).
Proof.
  intros Hb. destruct (Iterates_exists (IterOf e)) as (els & fin & Hi).
  pose proof (Iterates_length _ _ _ Hi) as Hlen.
  rewrite (Elements_iterates _ _ _ Hi).
  assert (Hc : isSetOrVector (Typ e) = true ->
               ContainerLength e
               = Some (match fin with
                       | None => (Z.of_nat (length els), None)
                       | Some err => ((-1)%Z, Some err)
                       end)).
  { intros Ht. unfold ContainerLength. rewrite Hb.
    destruct (Typ e) as [[] |]; try discriminate Ht;
      rewrite (lengthLoop_Iterates _ _ _ Hi) by lia; now destruct fin. }
  split.
  - intros elements. destruct (Typ e) as [[] |] eqn:Ht; cbn; try discriminate;
      (destruct fin; [discriminate |]); intros [= <-];
      rewrite Hc by reflexivity; unfold typed; now rewrite length_map.
  - intros n. destruct (Typ e) as [[] |] eqn:Ht; cbn;
      try (unfold ContainerLength; rewrite Ht; discriminate);
      rewrite Hc by reflexivity; (destruct fin; [discriminate |]);
      intros [= <-]; eexists; (split; [reflexivity |]);
      unfold typed; now rewrite length_map.
Qed.

Lemma VectorIndex_iterates (e : TypedEncoding) (p : ptr) (typ : Type_) (idx : Z)
    (els : list (option Bytes)) (fin : option error) :
  Typ e = Some (TypeVector p typ) -> (0 <= idx)%Z ->
  Iterates (IterOf e) els fin ->
  VectorIndex e idx
  = Some (match els !! Z.to_nat idx with
          | Some zv => (MkTypedEncoding (Some typ) zv, None)
          | None => (zero, Some (default ErrIndex fin))
          end).
Proof.
  intros Ht Hidx Hi. pose proof (Iterates_length _ _ _ Hi) as Hlen.
  unfold VectorIndex. rewrite Ht.
  destruct (Z.ltb_spec idx 0); [lia |].
  rewrite (indexLoop_Iterates _ _ _ Hi) by lia. now rewrite Z.sub_0_r.
Qed.

(** X4.  [VectorIndex] on a vector, at an index that is not negative: the
    element at that position if the iteration reads that far, whatever comes
    after it in the body; otherwise the error that stopped the iteration, or
    [ErrIndex] at the end of the body. *)
Theorem VectorIndex_cases (e : TypedEncoding) (p : ptr) (typ : Type_) (idx : Z)
    (els : list (option Bytes)) (fin : option error) :
  Typ e = Some (TypeVector p typ) -> (0 <= idx)%Z ->
  Iterates (IterOf e) els fin ->
  VectorIndex e idx
  = Some (match els !! Z.to_nat idx with
          | Some zv => (MkTypedEncoding (Some typ) zv, None)
          | None => (zero, Some (default ErrIndex fin))
          end).
Proof. apply VectorIndex_iterates. Qed.

(** X5.  On a vector whose elements [Elements] returns, [VectorIndex]
    returns the element [Elements] has at that index, and [ErrIndex] at
    every index outside the list. *)
Theorem VectorIndex_Elements (e : TypedEncoding) (idx : Z)
    (elements : list TypedEncoding) :
  isVector (Typ e) = true -> Elements e = Some (elements, None) ->
  VectorIndex e idx
  = Some (match (if (idx <? 0)%Z then None else elements !! Z.to_nat idx) with
          | Some el => (el, None)
          | None => (zero, Some ErrIndex)
          end).
Proof.
  intros Ht He. destruct (Iterates_exists (IterOf e)) as (els & fin & Hi).
  rewrite (Elements_iterates _ _ _ Hi) in He.
  destruct (Typ e) as [[| | | | | | | | | | | | | | p typ |] |] eqn:HT;
    try discriminate Ht.
  cbn in He. destruct fin; [discriminate |]. injection He as <-.
  destruct (Z.ltb_spec idx 0) as [Hneg | Hpos].
  - unfold VectorIndex. rewrite HT.
    destruct (Z.ltb_spec idx 0); [reflexivity | lia].
  - rewrite (VectorIndex_iterates e p typ idx els None HT Hpos Hi).
    unfold typed. rewrite list_lookup_fmap.
    now destruct (els !! Z.to_nat idx).
Qed.

(** X6.  [Contains compare] holds of a set or a vector exactly when
    [compare] holds of one of the elements read, each taken with the inner
    type; elements after a failing [Next] are not looked at.  It is false of
    every other type. *)
Theorem Contains_cases (compare : Predicate) (e : TypedEncoding)
    (els : list (option Bytes)) (fin : option error) :
  Iterates (IterOf e) els fin ->
  Contains compare e
  = Some (match InnerType (Typ e) with
          | Some innerType => existsb compare (typed (Some innerType) els)
          | None => false
          end).
Proof.
  intros Hi. pose proof (Iterates_length _ _ _ Hi) as Hlen. unfold Contains.
  destruct (Typ e) as [[] |]; try reflexivity; cbn [InnerType];
    now rewrite (containsLoop_Iterates _ _ _ Hi) by lia.
Qed.

(** ** Field reads and paths *)

Lemma lut_first (columns : list Column) (field : string) (k n : nat) :
  lut columns field k = Some n ->
  forall (m : nat) (c : Column),
    (m < n - k)%nat -> columns !! m = Some c -> Name c <> field.
Proof.
  revert k. induction columns as [| col columns IH]; intros k; cbn; [discriminate |].
  destruct (String.eqb_spec (Name col) field) as [E | E].
  - intros [= <-] m c Hm. lia.
  - intros H m c Hm Hc. pose proof (lut_ge _ _ _ _ H) as Hge.
    destruct m as [| m]; cbn in Hc; [now inversion Hc; subst |].
    apply (IH _ H m c); [lia | exact Hc].
Qed.

(** X7.  A field read on a record value returns the element at the
    position of the first column with that name, typed with that column's
    type, whenever the iteration reads that far: a body that is broken or
    short after that element does not matter.  A name no column has, or an
    element the iteration does not reach, gives the zero value. *)
Theorem fieldRead_apply_cases (field : string) (p : ptr) (columns : list Column)
    (key : string) (body : option Bytes) (els : list (option Bytes))
    (fin : option error) :
  Iterates (IterOf (MkValue (Some (TypeRecord p columns key)) body)) els fin ->
  match lut columns field 0 with
  | None =>
    fieldRead_apply field (MkValue (Some (TypeRecord p columns key)) body) = zero
  | Some n =>
    exists col : Column,
      columns !! n = Some col /\ Name col = field
      /\ (forall (m : nat) (c : Column),
             (m < n)%nat -> columns !! m = Some c -> Name c <> field)
      /\ fieldRead_apply field (MkValue (Some (TypeRecord p columns key)) body)
         = match els !! n with
           | Some zv => MkValue (Some (ColType col)) zv
           | None => zero
           end
  end.
Proof.
  intros Hi. destruct (lut columns field 0) as [n |] eqn:Hl.
  - destruct (scanColumns_found field (MkValue (Some (TypeRecord p columns key)) body)
                _ _ _ Hl) as (col & Hc & Hn & Hs).
    rewrite Nat.sub_0_r in Hc. exists col.
    split; [exact Hc |]. split; [exact Hn |]. split.
    + intros m c Hm. apply (lut_first _ _ _ _ Hl). lia.
    + cbn [fieldRead_apply Typ]. rewrite Hs, (walk_Iterates _ _ _ Hi).
      now destruct (els !! n).
  - now apply fieldRead_apply_absent.
Qed.

Lemma indexLoop_shape (rounds : nat) (typ : Type_) (idx i : Z) (it : Iter)
    (el : TypedEncoding) (err : option error) :
  indexLoop rounds typ idx i it = Some (el, err) ->
  (err = None /\ exists zv, el = MkTypedEncoding (Some typ) zv)
  \/ (el = zero /\ err <> None).
Proof.
  revert i it. induction rounds as [| rounds IH]; intros i it; cbn; [discriminate |].
  destruct (Done it); [intros [= <- <-]; now right |].
  destruct (Next it) as [zv c it' | e]; [| intros [= <- <-]; now right].
  destruct (i =? idx)%Z; [intros [= <- <-]; left; eauto | apply IH].
Qed.

Lemma arrayIndex_apply_shape (idx : Z) (e e' : Value) :
  arrayIndex_apply idx e = Some e' ->
  e' = zero
  \/ exists (p : ptr) (typ : Type_) (zv : option Bytes),
       Typ e = Some (TypeVector p typ) /\ e' = MkValue (Some typ) zv.
Proof.
  unfold arrayIndex_apply, ArrayIndex, VectorIndex.
  destruct (Typ e) as [[| | | | | | | | | | | | | | p typ |] |] eqn:Ht;
    try (cbn; intros [= <-]; now left).
  destruct (idx <? 0)%Z.
  - cbn. intros [= <-]. right. eauto.
  - destruct (indexLoop _ typ idx 0 (IterOf e)) as [[el err] |] eqn:Hl;
      [| discriminate].
    apply indexLoop_shape in Hl as [[-> [zv ->]] | [-> Hne]]; cbn.
    + intros [= <-]. right. eauto.
    + destruct err as [err |]; [| congruence].
      destruct (decide (err = ErrIndex)); intros [= <-]; [right; eauto | now left].
Qed.

Lemma scanColumns_shape (field : string) (e : Value) (columns : list Column) (k : nat) :
  scanColumns field e columns k = zero
  \/ exists (col : Column) (zv : option Bytes),
       col ∈ columns /\ Name col = field
       /\ scanColumns field e columns k = MkValue (Some (ColType col)) zv.
Proof.
  revert k. induction columns as [| col columns IH]; intros k;
    cbn [scanColumns]; [now left |].
  destruct (String.eqb_spec (Name col) field) as [E | E].
  - destruct (walk (S k) (IterOf e) None) as [v |]; [| now left].
    right. exists col, v. split; [apply list_elem_of_here | auto].
  - destruct (IH (S k)) as [H | (c & zv & Hin & Hn & H)]; [now left |].
    right. exists c, zv. split; [now apply list_elem_of_further | auto].
Qed.

Lemma apply_shape (op : fieldop) (e e' : Value) :
  apply op e = Some e' ->
  e' = zero
  \/ match op with
     | fieldRead field =>
       exists (p : ptr) (columns : list Column) (key : string) (col : Column),
         Typ e = Some (TypeRecord p columns key) /\ col ∈ columns
         /\ Name col = field /\ Typ e' = Some (ColType col)
     | arrayIndex idx =>
       exists (p : ptr) (typ : Type_),
         Typ e = Some (TypeVector p typ) /\ Typ e' = Some typ
     end.
Proof.
  destruct op as [idx | field]; cbn [apply].
  - intros H. apply arrayIndex_apply_shape in H as [-> | (p & typ & zv & Ht & ->)];
      [now left | right; eauto].
  - intros [= <-]. unfold fieldRead_apply.
    destruct (Typ e) as [[| | | | | | | | | | | | | | | p columns key] |] eqn:Ht;
      try (now left).
    destruct (scanColumns_shape field e columns 0) as [H | (c & zv & Hin & Hn & H)];
      [now left |].
    right. exists p, columns, key, c. rewrite H. auto.
Qed.

(** X8.  What an operation of a path returns is the zero value or a value
    typed by its operand: a field read returns the type of a column of that
    name of the record it reads, an index the element type of the vector it
    indexes.  No result has a body and no type. *)
Theorem apply_typed_by_operand (op : fieldop) (e e' : Value) :
  apply op e = Some e' ->
  e' = zero
  \/ match op with
     | fieldRead field =>
       exists (p : ptr) (columns : list Column) (key : string) (col : Column),
         Typ e = Some (TypeRecord p columns key) /\ col ∈ columns
         /\ Name col = field /\ Typ e' = Some (ColType col)
     | arrayIndex idx =>
       exists (p : ptr) (typ : Type_),
         Typ e = Some (TypeVector p typ) /\ Typ e' = Some typ
     end.
Proof. apply apply_shape. Qed.

Lemma apply_zero (op : fieldop) : apply op zero = Some zero.
Proof. destruct op; reflexivity. Qed.

Lemma apply_untyped (op : fieldop) (e e' : Value) :
  apply op e = Some e' -> Typ e' = None -> e' = zero.
Proof.
  intros H Ht. apply apply_shape in H as [-> | H]; [reflexivity |].
  destruct op.
  - destruct H as (p & typ & _ & H). congruence.
  - destruct H as (p & columns & key & col & _ & _ & _ & H). congruence.
Qed.

Lemma applyOps_snoc (ops : list fieldop) (op : fieldop) (e : Value) :
  applyOps (ops ++ [op]) e = applyOps ops e ≫= apply op.
Proof.
  revert e. induction ops as [| o ops IH]; intros e; cbn.
  - destruct (apply op e) as [e' |]; cbn; [| reflexivity]. now destruct (Typ e').
  - destruct (apply o e) as [e1 |] eqn:Ho; cbn; [| reflexivity].
    destruct (Typ e1) eqn:Ht; [apply IH |].
    cbn. rewrite (apply_untyped _ _ _ Ho Ht). symmetry. apply apply_zero.
Qed.

Lemma resolver_snoc (field : string) (ops : list fieldop) (op : fieldop) (r : Record_) :
  resolver field (ops ++ [op]) r = resolver field ops r ≫= apply op.
Proof.
  unfold resolver. destruct (LUT r field).
  - apply applyOps_snoc.
  - cbn. symmetry. apply apply_zero.
Qed.

Lemma collapse_ops (node : FieldExpr) (ops : list fieldop) :
  collapse node ops
  = match collapse node [] with
    | inl (field, ops0) => inl (field, ops0 ++ ops)
    | inr err => inr err
    end.
Proof.
  revert ops. induction node as [field | Fn node IH Param |]; intros ops; cbn;
    [reflexivity | | reflexivity].
  destruct (String.eqb Fn "Index").
  - destruct (ParseInt Param) as [idx | err]; [| reflexivity].
    rewrite (IH [arrayIndex idx]), (IH (arrayIndex idx :: ops)).
    destruct (collapse node []) as [[f ops0] | err]; [| reflexivity].
    now rewrite <- app_assoc.
  - destruct (String.eqb Fn "RecordFieldRead"); [| reflexivity].
    rewrite (IH [fieldRead Param]), (IH (fieldRead Param :: ops)).
    destruct (collapse node []) as [[f ops0] | err]; [| reflexivity].
    now rewrite <- app_assoc.
Qed.

Lemma collapse_call (Fn Param : string) (node : FieldExpr) (op : fieldop) :
  opOf Fn Param = Some op ->
  collapse (FieldCall Fn node Param) [] = collapse node [op].
Proof.
  unfold opOf. cbn. destruct (String.eqb Fn "Index").
  - destruct (ParseInt Param); [now intros [= <-] | discriminate].
  - destruct (String.eqb Fn "RecordFieldRead"); [now intros [= <-] | discriminate].
Qed.

(** X9.  Paths evaluate from the inside out: the value of a call on a
    path is the operation of the call applied to the value of the path
    below it, and a path that does not compile keeps its error.  The early
    exit of the resolver, at a result without a type, changes nothing. *)
Theorem evaluate_call (Fn Param : string) (node : FieldExpr) (op : fieldop)
    (r : Record_) :
  opOf Fn Param = Some op ->
  evaluate (FieldCall Fn node Param) r
  = match evaluate node r with
    | Some (inl e) => inl <$> apply op e
    | Some (inr err) => Some (inr err)
    | None => None
    end.
Proof.
  intros Hop. unfold evaluate, CompileFieldExpr.
  rewrite (collapse_call _ _ _ _ Hop), collapse_ops.
  destruct (collapse node []) as [[field ops] | err]; [| reflexivity].
  rewrite resolver_snoc.
  now destruct (resolver field ops r).
Qed.

Lemma compiles_collapse (node : FieldExpr) :
  compiles node = true <-> exists field ops, collapse node [] = inl (field, ops).
Proof.
  induction node as [field | Fn node IH Param |]; cbn.
  - split; eauto.
  - rewrite andb_true_iff, IH.
    destruct (String.eqb Fn "Index").
    + destruct (ParseInt Param) as [idx | err].
      * rewrite (collapse_ops node [arrayIndex idx]). split.
        -- intros (_ & f & ops & ->). eauto.
        -- destruct (collapse node []) as [[f ops] | err]; [eauto |].
           intros (f & ops & H). discriminate H.
      * split; [intros [H _]; discriminate H | intros (f & ops & H); discriminate H].
    + destruct (String.eqb Fn "RecordFieldRead").
      * rewrite (collapse_ops node [fieldRead Param]). split.
        -- intros (_ & f & ops & ->). eauto.
        -- destruct (collapse node []) as [[f ops] | err]; [eauto |].
           intros (f & ops & H). discriminate H.
      * split; [intros [H _]; discriminate H | intros (f & ops & H); discriminate H].
  - split; [discriminate | intros (f & ops & H); discriminate H].
Qed.

Lemma compiles_CompileFieldExpr (node : FieldExpr) :
  compiles node = true <-> exists resolve, CompileFieldExpr node = inl resolve.
Proof.
  rewrite compiles_collapse. unfold CompileFieldExpr. split.
  - intros (f & ops & ->). eauto.
  - destruct (collapse node []) as [[f ops] | err]; [eauto |].
    intros [res H]. discriminate H.
Qed.

Lemma compiles_prints (node : FieldExpr) :
  compiles node = true -> is_Some (FieldExprToString node).
Proof.
  induction node as [field | Fn node IH Param |]; cbn; [eauto | | discriminate].
  rewrite andb_true_iff. intros [Hfn Hn]. destruct (IH Hn) as [s ->].
  destruct (String.eqb Fn "Len"); [cbn; eauto |].
  destruct (String.eqb Fn "Index"); [cbn; eauto |].
  rewrite Hfn. cbn. eauto.
Qed.

(** X10.  A path compiles exactly when each of its calls is an [Index]
    with a decimal [int64] parameter or a [RecordFieldRead], down to a
    [FieldRead].  Every path that compiles can be printed by
    [FieldExprToString] without a panic; not the other way round: a [Len]
    call prints whenever the path below it prints, and never compiles. *)
Theorem compile_and_print :
  (forall node : FieldExpr,
      compiles node = true <-> exists resolve, CompileFieldExpr node = inl resolve)
  /\ (forall (node : FieldExpr) (resolve : FieldExprResolver),
         CompileFieldExpr node = inl resolve -> is_Some (FieldExprToString node))
  /\ (forall (node : FieldExpr) (Param s : string),
         FieldExprToString node = Some s ->
         FieldExprToString (FieldCall "Len" node Param) = Some ("len(" +:+ s +:+ ")")
         /\ CompileFieldExpr (FieldCall "Len" node Param)
            = inr (Errorf "unknown FieldCall: Len")).
Proof.
  split; [exact compiles_CompileFieldExpr |]. split.
  - intros node res H. apply compiles_prints, compiles_CompileFieldExpr. eauto.
  - intros node Param s H. split; [cbn; now rewrite H | reflexivity].
Qed.

Lemma compileEach_app (nodes : list FieldExpr) (acc : list FieldExprResolver) :
  compileEach nodes acc
  = match compileEach nodes [] with
    | inl rs => inl (acc ++ rs)
    | inr err => inr err
    end.
Proof.
  revert acc. induction nodes as [| n nodes IH]; intros acc; cbn.
  - now rewrite app_nil_r.
  - destruct (CompileFieldExpr n) as [res | err]; [| reflexivity].
    rewrite (IH (acc ++ [res])), (IH [res]).
    destruct (compileEach nodes []); [| reflexivity]. now rewrite <- app_assoc.
Qed.

Lemma compileEach_Forall2 (nodes : list FieldExpr) (rs : list FieldExprResolver) :
  compileEach nodes [] = inl rs
  <-> Forall2 (fun node res => CompileFieldExpr node = inl res) nodes rs.
Proof.
  revert rs. induction nodes as [| n nodes IH]; intros rs; cbn.
  - split; [intros [= <-]; constructor | inversion 1; reflexivity].
  - destruct (CompileFieldExpr n) as [res | err] eqn:Hn.
    + rewrite compileEach_app. split.
      * destruct (compileEach nodes []) as [rs' |] eqn:E; [| discriminate].
        intros [= <-]. constructor; [exact Hn | now apply IH].
      * inversion 1 as [| ? res' ? rs' H1 H2]; subst.
        apply IH in H2. rewrite H2. rewrite Hn in H1. now injection H1 as ->.
    + split; [discriminate |]. inversion 1; congruence.
Qed.

Lemma compileEach_first_error (good rest : list FieldExpr) (bad : FieldExpr)
    (err : error) :
  Forall (fun node => compiles node = true) good ->
  CompileFieldExpr bad = inr err ->
  compileEach (good ++ bad :: rest) [] = inr err.
Proof.
  intros Hg Hb. induction Hg as [| n good Hn _ IH]; cbn.
  - now rewrite Hb.
  - apply compiles_CompileFieldExpr in Hn as [res ->].
    rewrite compileEach_app. now rewrite IH.
Qed.

(** X11.  [CompileFieldExprs] is all or nothing.  It returns resolvers
    exactly when every node compiles, and then one resolver per node, in
    order, each the one [CompileFieldExpr] gives for its node; otherwise it
    returns no resolver and the error of the first node that does not
    compile.  The nil slice of nodes gives the nil slice of resolvers. *)
Theorem CompileFieldExprs_cases :
  CompileFieldExprs None = inl None
  /\ (forall (nodes : list FieldExpr) (resolvers : list FieldExprResolver),
         CompileFieldExprs (Some nodes) = inl (Some resolvers)
         <-> Forall2 (fun node res => CompileFieldExpr node = inl res)
                     nodes resolvers)
  /\ (forall (good rest : list FieldExpr) (bad : FieldExpr) (err : error),
         Forall (fun node => compiles node = true) good ->
         CompileFieldExpr bad = inr err ->
         CompileFieldExprs (Some (good ++ bad :: rest)) = inr err).
Proof.
  split; [reflexivity |]. split.
  - intros nodes rs. rewrite <- compileEach_Forall2. unfold CompileFieldExprs.
    destruct (compileEach nodes []); split; congruence.
  - intros good rest bad err Hg Hb. unfold CompileFieldExprs.
    now rewrite (compileEach_first_error _ _ _ _ Hg Hb).
Qed.

(** ** The registry only grows *)

Section RegistryGrowth.

Variable String_ : Type_ -> string.
Variable recordString : list Column -> string.
Variables parseSetTypeBody parseVectorTypeBody parseRecordTypeBody :
  string -> Registry -> parsed * Registry.

Local Abbreviation addType' := (addType String_).
Local Abbreviation parseType' :=
  (parseType String_ parseSetTypeBody parseVectorTypeBody parseRecordTypeBody).
Local Abbreviation LookupType' :=
  (LookupType String_ parseSetTypeBody parseVectorTypeBody parseRecordTypeBody).

Lemma grows_refl (r : Registry) : grows r r.
Proof. now intros k t. Qed.

Lemma grows_trans (r1 r2 r3 : Registry) : grows r1 r2 -> grows r2 r3 -> grows r1 r3.
Proof. intros H1 H2 k t H. now apply H2, H1. Qed.

Lemma grows_insert (key : string) (t : Type_) (r : Registry) (next : ptr) :
  typeMap r !! key = None ->
  grows r (MkRegistry (<[key := t]> (typeMap r)) next).
Proof.
  intros Hn k u Hk. cbn. rewrite lookup_insert_ne; [exact Hk | congruence].
Qed.

Lemma addType_grows (t : Type_) (r : Registry) : grows r (snd (addType' t r)).
Proof.
  unfold addType. destruct (typeMap r !! String_ t) eqn:E; cbn.
  - apply grows_refl.
  - now apply grows_insert.
Qed.

Lemma LookupVectorType_grows (innerType : Type_) (r : Registry) :
  grows r (snd (LookupVectorType String_ innerType r)).
Proof.
  unfold LookupVectorType, new. cbn.
  exact (addType_grows _ (MkRegistry (typeMap r) (Pos.succ (nextPtr r)))).
Qed.

Lemma LookupTypeRecord_grows (columns : list Column) (r : Registry) :
  grows r (snd (LookupTypeRecord recordString columns r)).
Proof.
  unfold LookupTypeRecord.
  destruct (typeMap r !! recordString columns) eqn:E; cbn.
  - apply grows_refl.
  - now apply grows_insert.
Qed.

Lemma internBody_grows (body : string -> Registry -> parsed * Registry) :
  growing body -> growing (internBody String_ body).
Proof.
  intros Hb in_ r. unfold internBody. specialize (Hb in_ r).
  destruct (body in_ r) as [[rest t | err] r']; cbn in *; [| exact Hb].
  pose proof (addType_grows t r') as H.
  destruct (addType' t r') as [h r'']. cbn in *. eapply grows_trans; eauto.
Qed.

Lemma parseType_grows :
  growing parseSetTypeBody -> growing parseVectorTypeBody ->
  growing parseRecordTypeBody -> growing parseType'.
Proof.
  intros Hs Hv Hr in_ r. unfold parseType.
  destruct (typeMap r !! TrimSpace in_); [apply grows_refl |].
  destruct (parseWord in_) as [rest word].
  destruct (String.eqb word EmptyString); [apply grows_refl |].
  destruct (typeMap r !! word); [apply grows_refl |].
  destruct (String.eqb word "set"); [now apply internBody_grows |].
  destruct (String.eqb word "vector"); [now apply internBody_grows |].
  destruct (String.eqb word "record"); [now apply internBody_grows |].
  apply grows_refl.
Qed.

(** X12.  The registry only grows: [addType], [LookupVectorType] and
    [LookupTypeRecord] never remove a key and never bind a key to another
    handle, and neither does [parseType] when the body parsers do not. *)
Theorem registry_grows :
  (forall (t : Type_) (r : Registry), grows r (snd (addType' t r)))
  /\ (forall (innerType : Type_) (r : Registry),
         grows r (snd (LookupVectorType String_ innerType r)))
  /\ (forall (columns : list Column) (r : Registry),
         grows r (snd (LookupTypeRecord recordString columns r)))
  /\ (growing parseSetTypeBody -> growing parseVectorTypeBody ->
      growing parseRecordTypeBody ->
      forall (in_ : string) (r : Registry),
        grows r (snd (parseType' in_ r))
        /\ grows r (snd (LookupType' in_ r))).
Proof.
  split; [exact addType_grows |].
  split; [exact LookupVectorType_grows |].
  split; [exact LookupTypeRecord_grows |].
  intros Hs Hv Hr in_ r. pose proof (parseType_grows Hs Hv Hr in_ r) as H.
  split; [exact H |]. unfold LookupType.
  now destruct (parseType' in_ r) as [[rest t | err] r'].
Qed.

(** X13.  Intern, then look up: after [addType t], looking up the printed
    form of [t] returns the handle [addType] returned; after
    [LookupTypeRecord columns], looking up the key of the columns returns the
    record type it returned.  Neither lookup changes the registry.  (The
    printed forms carry no white space at their ends.) *)
Theorem intern_then_lookup :
  (forall (t h : Type_) (r r' : Registry),
      TrimSpace (String_ t) = String_ t ->
      addType' t r = (h, r') ->
      LookupType' (String_ t) r' = (inl h, r'))
  /\ (forall (columns : list Column) (h : Type_) (r r' : Registry),
         TrimSpace (recordString columns) = recordString columns ->
         LookupTypeRecord recordString columns r = (Some h, r') ->
         LookupType' (recordString columns) r' = (inl h, r')).
Proof.
  split.
  - intros t h r r' Ht Ha. apply (addType_filed String_) in Ha.
    unfold LookupType. rewrite (parseType_whole _ _ _ _ _ h); [reflexivity |].
    now rewrite Ht.
  - intros columns h r r' Ht Hl.
    apply (LookupTypeRecord_filed recordString) in Hl as [Hl _].
    unfold LookupType. rewrite (parseType_whole _ _ _ _ _ h); [reflexivity |].
    now rewrite Ht.
Qed.

(** X14.  In a registry that files every handle under its own printed
    form, interning a handle the registry holds returns that handle and
    leaves the registry as it is. *)
Theorem addType_held_handle (h : Type_) (r : Registry) :
  canonical String_ r -> held r h -> addType' h r = (h, r).
Proof.
  intros Hc [k Hk]. apply Hc in Hk. now apply addType_present.
Qed.

(** X15.  Whatever type [LookupType] returns is held by the registry it
    leaves, whichever body parsers are plugged in: a parsed type is always an
    interned one. *)
Theorem LookupType_interned (in_ : string) (t : Type_) (r r' : Registry) :
  LookupType' in_ r = (inl t, r') -> held r' t.
Proof.
  unfold LookupType.
  destruct (parseType' in_ r) as [[rest t0 | err] r0] eqn:E; [| discriminate].
  intros [= <- <-]. exact (parseType_held _ _ _ _ _ _ _ _ _ E).
Qed.

(** The record type prints as the key it is filed under. *)
Hypothesis String_record :
  forall (p : ptr) (columns : list Column),
    String_ (TypeRecord p columns (recordString columns)) = recordString columns.

(** X16.  The registry stays canonical: if every handle is filed under
    its own printed form, it still is after [addType], [LookupVectorType]
    and [LookupTypeRecord], and after [parseType] when the body parsers keep
    it so. *)
Theorem canonical_kept (r : Registry) :
  canonical String_ r ->
  (forall t : Type_, canonical String_ (snd (addType' t r)))
  /\ (forall innerType : Type_,
         canonical String_ (snd (LookupVectorType String_ innerType r)))
  /\ (forall columns : list Column,
         canonical String_ (snd (LookupTypeRecord recordString columns r)))
  /\ (keeps String_ parseSetTypeBody -> keeps String_ parseVectorTypeBody ->
      keeps String_ parseRecordTypeBody ->
      forall in_ : string, canonical String_ (snd (parseType' in_ r))).
Proof.
  intros Hc.
  split; [intros t; now apply addType_canonical |].
  split; [intros i; unfold LookupVectorType; cbn;
          now apply addType_canonical, new_canonical |].
  split; [intros columns; now apply LookupTypeRecord_canonical |].
  intros Hs Hv Hr in_. now apply parseType_keeps.
Qed.

End RegistryGrowth.

(** ** Inner types *)

Lemma dropPrefix_app (p s : string) : dropPrefix p (p +:+ s) = Some s.
Proof.
  induction p as [| c p IH]; [reflexivity |].
  rewrite append_cons. cbn. now rewrite Ascii.eqb_refl.
Qed.

(** X17.  [trimInnerTypes] takes the printed form of a compound type
    apart: from the type word, an opening bracket, the inner types and a
    closing bracket it returns the inner types, removing one closing bracket
    only. *)
Theorem trimInnerTypes_inner (typ inner : string) :
  trimInnerTypes typ (typ +:+ "[" +:+ inner +:+ "]") = inner.
Proof.
  unfold trimInnerTypes, TrimPrefix, TrimSuffix.
  rewrite <- (append_assoc typ "[" (inner +:+ "]")), dropPrefix_app.
  rewrite rev_append. cbn [GoStrings.rev].
  change (EmptyString +:+ String "]" EmptyString) with (String "]" EmptyString).
  change (String "]" EmptyString +:+ GoStrings.rev inner)
    with (String "]" (GoStrings.rev inner)).
  cbn. apply rev_rev.
Qed.

(** ** White space around a type *)

Lemma length_append (x y : string) :
  String.length (x +:+ y) = (String.length x + String.length y)%nat.
Proof.
  induction x as [| c x IH]; [reflexivity |]. rewrite append_cons. cbn. now rewrite IH.
Qed.

Lemma length_rev (x : string) : String.length (GoStrings.rev x) = String.length x.
Proof.
  induction x as [| c x IH]; [reflexivity |]. cbn. rewrite length_append, IH. cbn. lia.
Qed.

Lemma dropPrefix_split (p s r : string) : dropPrefix p s = Some r -> s = p +:+ r.
Proof.
  revert s. induction p as [| a p IH]; intros s; cbn; [now intros [= ->] |].
  destruct s as [| b s]; [discriminate |].
  destruct (Ascii.eqb_spec a b) as [-> | _]; [| discriminate].
  intros H. rewrite append_cons. f_equal. now apply IH.
Qed.

Lemma dropPrefix_more (p s r z : string) :
  dropPrefix p s = Some r -> dropPrefix p (s +:+ z) = Some (r +:+ z).
Proof.
  intros H. apply dropPrefix_split in H as ->.
  rewrite append_assoc. apply dropPrefix_app.
Qed.

Lemma dropAny_more (ps : list string) (s r z : string) :
  dropAny ps s = Some r -> is_Some (dropAny ps (s +:+ z)).
Proof.
  induction ps as [| p ps IH]; cbn; [discriminate |].
  destruct (dropPrefix p s) as [r' |] eqn:E.
  - intros _. rewrite (dropPrefix_more _ _ _ z E). eauto.
  - intros H. destruct (dropPrefix p (s +:+ z)); [eauto | now apply IH].
Qed.

Lemma dropAny_shrinks (ps : list string) (s r : string) :
  someByte ps -> dropAny ps s = Some r ->
  (String.length r < String.length s)%nat /\ exists p, s = p +:+ r.
Proof.
  intros Hps. induction Hps as [| p ps Hp _ IH]; cbn; [discriminate |].
  destruct (dropPrefix p s) as [r' |] eqn:E; [| exact IH].
  intros [= ->]. apply dropPrefix_split in E as ->. split; [| eauto].
  rewrite length_append. destruct p; [congruence | cbn; lia].
Qed.

Lemma dropAny_empty (ps : list string) : someByte ps -> dropAny ps EmptyString = None.
Proof.
  intros Hps. induction Hps as [| p ps Hp _ IH]; cbn; [reflexivity |].
  destruct p; [congruence | exact IH].
Qed.

Lemma trimLeading_done (ps : list string) (fuel : nat) (s : string) :
  someByte ps -> (String.length s <= fuel)%nat ->
  dropAny ps (trimLeading fuel ps s) = None.
Proof.
  intros Hps. revert s. induction fuel as [| fuel IH]; intros s Hl; cbn.
  - destruct s; [now apply dropAny_empty | cbn in Hl; lia].
  - destruct (dropAny ps s) as [r |] eqn:E; [| exact E].
    apply IH. apply (dropAny_shrinks _ _ _ Hps) in E as [E _]. lia.
Qed.

Lemma trimLeading_suffix (ps : list string) (fuel : nat) (s : string) :
  someByte ps -> exists pre, s = pre +:+ trimLeading fuel ps s.
Proof.
  intros Hps. revert s. induction fuel as [| fuel IH]; intros s; cbn.
  - now exists EmptyString.
  - destruct (dropAny ps s) as [r |] eqn:E; [| now exists EmptyString].
    apply (dropAny_shrinks _ _ _ Hps) in E as [_ [p ->]].
    destruct (IH r) as [pre Hpre]. exists (p +:+ pre).
    rewrite append_assoc. now rewrite <- Hpre.
Qed.

Lemma trimLeading_fixed (ps : list string) (fuel : nat) (s : string) :
  dropAny ps s = None -> trimLeading fuel ps s = s.
Proof. intros H. destruct fuel; cbn; [reflexivity | now rewrite H]. Qed.

Lemma someByte_spaces : someByte spaces /\ someByte (map GoStrings.rev spaces).
Proof. split; repeat constructor; discriminate. Qed.

Lemma TrimSpace_idempotent (s : string) : TrimSpace (TrimSpace s) = TrimSpace s.
Proof.
  destruct someByte_spaces as [Hs Hr].
  unfold TrimSpace. set (x := TrimLeft s).
  assert (Hx : dropAny spaces x = None)
    by (apply trimLeading_done; [exact Hs | lia]).
  set (t := trimLeading (String.length x) (map GoStrings.rev spaces) (GoStrings.rev x)).
  assert (Ht : dropAny (map GoStrings.rev spaces) t = None)
    by (apply trimLeading_done; [exact Hr | rewrite length_rev; lia]).
  assert (Hy : TrimRight x = GoStrings.rev t) by reflexivity.
  rewrite Hy.
  assert (Hl : TrimLeft (GoStrings.rev t) = GoStrings.rev t).
  { apply trimLeading_fixed.
    destruct (dropAny spaces (GoStrings.rev t)) as [r |] eqn:E; [| reflexivity].
    destruct (trimLeading_suffix (map GoStrings.rev spaces) (String.length x)
                (GoStrings.rev x) Hr) as [pre Hpre].
    fold t in Hpre.
    assert (Hxx : x = GoStrings.rev t +:+ GoStrings.rev pre)
      by (rewrite <- rev_append, <- Hpre; symmetry; apply rev_rev).
    destruct (dropAny_more _ _ _ (GoStrings.rev pre) E) as [r' Hr'].
    rewrite <- Hxx in Hr'. congruence. }
  rewrite Hl. unfold TrimRight. rewrite rev_rev.
  rewrite (trimLeading_fixed _ _ _ Ht). reflexivity.
Qed.

Section WhiteSpace.

Variable String_ : Type_ -> string.
Variables parseSetTypeBody parseVectorTypeBody parseRecordTypeBody :
  string -> Registry -> parsed * Registry.

Local Abbreviation parseType' :=
  (parseType String_ parseSetTypeBody parseVectorTypeBody parseRecordTypeBody).
Local Abbreviation LookupType' :=
  (LookupType String_ parseSetTypeBody parseVectorTypeBody parseRecordTypeBody).

Lemma parseWord_trimmed (in_ : string) : parseWord (TrimSpace in_) = parseWord in_.
Proof. unfold parseWord. now rewrite TrimSpace_idempotent. Qed.

(** X18.  White space around a type string does not count: the word
    [parseWord] finds, and, when the input is a registered key or starts with
    a word, the whole result of [parseType] and of [LookupType] are those of
    the trimmed input.  (Without a word the two differ in the text of the
    error, which quotes the input as given.) *)
Theorem white_space_ignored (in_ : string) (r : Registry) :
  parseWord (TrimSpace in_) = parseWord in_
  /\ (is_Some (typeMap r !! TrimSpace in_) \/ snd (parseWord in_) <> EmptyString ->
      parseType' (TrimSpace in_) r = parseType' in_ r
      /\ LookupType' (TrimSpace in_) r = LookupType' in_ r).
Proof.
  split; [apply parseWord_trimmed |].
  intros H.
  assert (Hp : parseType' (TrimSpace in_) r = parseType' in_ r).
  { unfold parseType. rewrite TrimSpace_idempotent, parseWord_trimmed.
    destruct (typeMap r !! TrimSpace in_) as [t |]; [reflexivity |].
    destruct H as [[t H] | H]; [discriminate |].
    destruct (parseWord in_) as [rest word]. cbn in H.
    apply String.eqb_neq in H. now rewrite H. }
  split; [exact Hp |]. unfold LookupType. now rewrite Hp.
Qed.

End WhiteSpace.

(** ** The test source *)

Section ProcFacts.

Variable Batch : Type.

Local Abbreviation Source := (Proc.TestSource Batch).
Local Abbreviation sourcePull := (Proc.TestSource_Pull Batch).
Local Abbreviation testPull := (Proc.ProcTest_Pull Batch Source sourcePull).

Lemma sourcePull_end (batches : list (option Batch)) (n : nat) :
  Proc.pulls Batch sourcePull n (Proc.MkTestSource Batch batches (length batches))
  = (replicate n (None, None), Proc.MkTestSource Batch batches (length batches)).
Proof.
  induction n as [| n IH]; cbn [Proc.pulls replicate]; [reflexivity |].
  unfold Proc.TestSource_Pull at 1. cbn [Proc.records Proc.idx].
  rewrite Nat.leb_refl, IH. reflexivity.
Qed.

Lemma past_end (batches : list (option Batch)) (n j : nat) :
  (length batches <= j)%nat ->
  map (fun k => (default None (batches !! k), @None error)) (seq j n)
  = replicate n (None, None).
Proof.
  revert j. induction n as [| n IH]; intros j Hj; cbn; [reflexivity |].
  rewrite lookup_ge_None_2 by exact Hj. cbn. f_equal. apply IH. lia.
Qed.

Lemma sourcePull_from (batches : list (option Batch)) (n i : nat) :
  (i <= length batches)%nat ->
  Proc.pulls Batch sourcePull n (Proc.MkTestSource Batch batches i)
  = (map (fun k => (default None (batches !! k), None)) (seq i n),
     Proc.MkTestSource Batch batches (Nat.min (i + n) (length batches))).
Proof.
  revert i. induction n as [| n IH]; intros i Hi.
  - cbn. do 2 f_equal. lia.
  - destruct (Nat.eq_dec i (length batches)) as [-> | Hne].
    + rewrite sourcePull_end. rewrite past_end; [| lia]. do 2 f_equal. lia.
    + cbn [Proc.pulls seq map].
      unfold Proc.TestSource_Pull at 1. cbn [Proc.records Proc.idx].
      destruct (Nat.leb_spec (length batches) i) as [Hge | Hlt]; [lia |].
      replace (i + 1)%nat with (S i) by lia.
      rewrite IH by lia. do 2 f_equal. lia.
Qed.

(** X19.  A test source hands out its batches in the order given, one per
    [Pull] and never with an error, and from then on answers every [Pull]
    with no batch and no error; its index never passes the number of its
    batches. *)
Theorem TestSource_pulls (batches : list (option Batch)) (n : nat) :
  Proc.pulls Batch sourcePull n (Proc.NewTestSource Batch batches)
  = (map (fun k => (default None (batches !! k), None)) (seq 0 n),
     Proc.MkTestSource Batch batches (Nat.min n (length batches))).
Proof. unfold Proc.NewTestSource. rewrite sourcePull_from by lia. reflexivity. Qed.

Section Latch.

Variable P : Type.
Variable pull : P -> Proc.pulled Batch * P.

Local Abbreviation anyPull := (Proc.ProcTest_Pull Batch P pull).

Lemma anyPull_eos (p : Proc.ProcTest P) (n : nat) :
  Proc.eos P p = true ->
  Proc.pulls Batch anyPull n p = (replicate n (None, Some Proc.afterEOS), p).
Proof.
  intros He. induction n as [| n IH]; cbn [Proc.pulls replicate]; [reflexivity |].
  unfold Proc.ProcTest_Pull at 1. rewrite He, IH. reflexivity.
Qed.

(** X20.  End of stream latches.  Once a [Pull] of a [ProcTest] has
    returned no batch and no error, every later [Pull] returns the error
    "called Pull() after EOS" and the proc under test is not pulled again; so
    a second [ExpectEOS] fails.  A [Pull] that returns a batch or an error
    does not set the latch. *)
Theorem ProcTest_eos_latch (p p' : Proc.ProcTest P) :
  anyPull p = ((None, None), p') ->
  Proc.eos P p' = true
  /\ (forall n : nat,
         Proc.pulls Batch anyPull n p' = (replicate n (None, Some Proc.afterEOS), p'))
  /\ Proc.ExpectEOS Batch P pull p' = (Some Proc.afterEOS, p')
  /\ (forall (q q' : Proc.ProcTest P) (b : option Batch) (err : option error),
         Proc.eos P q = false -> anyPull q = ((b, err), q') ->
         (b <> None \/ err <> None) -> Proc.eos P q' = false).
Proof.
  intros Hp.
  assert (He : Proc.eos P p' = true).
  { unfold Proc.ProcTest_Pull in Hp. destruct (Proc.eos P p) eqn:E.
    - discriminate Hp.
    - destruct (pull (Proc.compiledProc P p)) as [[b err] proc].
      destruct b, err; inversion Hp; reflexivity. }
  split; [exact He |]. split; [intros n; now apply anyPull_eos |]. split.
  - unfold Proc.ExpectEOS, Proc.ProcTest_Pull. now rewrite He.
  - intros q q' b err Hq Hpull Hne. unfold Proc.ProcTest_Pull in Hpull.
    rewrite Hq in Hpull.
    destruct (pull (Proc.compiledProc P q)) as [[b0 err0] proc].
    destruct b0, err0; inversion Hpull; subst; cbn;
      first [exact Hq | destruct Hne; congruence].
Qed.

End Latch.

Lemma expected_past (batches : list Batch) (n j : nat) :
  (length batches < j)%nat ->
  map (Proc.expected Batch batches) (seq j n) = replicate n (None, Some Proc.afterEOS).
Proof.
  revert j. induction n as [| n IH]; intros j Hj; cbn [replicate seq map];
    [reflexivity |].
  rewrite IH by lia. unfold Proc.expected at 1.
  rewrite (proj2 (Nat.ltb_ge j (length batches))) by lia.
  rewrite (proj2 (Nat.eqb_neq j (length batches))) by lia. reflexivity.
Qed.

Lemma testPull_step (batches : list Batch) (i : nat) (b : Batch) :
  batches !! i = Some b ->
  testPull (Proc.MkProcTest Source (Proc.MkTestSource Batch (map Some batches) i) false)
  = ((Some b, None),
     Proc.MkProcTest Source (Proc.MkTestSource Batch (map Some batches) (S i)) false).
Proof.
  intros Hb. pose proof (lookup_lt_Some _ _ _ Hb) as Hlt.
  unfold Proc.ProcTest_Pull, Proc.TestSource_Pull.
  cbn [Proc.eos Proc.compiledProc Proc.records Proc.idx].
  rewrite length_map.
  destruct (Nat.leb_spec (length batches) i) as [Hge | _]; [lia |].
  rewrite list_lookup_fmap, Hb. cbn.
  replace (i + 1)%nat with (S i) by lia. reflexivity.
Qed.

Lemma testPull_last (batches : list Batch) :
  testPull (Proc.MkProcTest Source
              (Proc.MkTestSource Batch (map Some batches) (length batches)) false)
  = ((None, None),
     Proc.MkProcTest Source
       (Proc.MkTestSource Batch (map Some batches) (length batches)) true).
Proof.
  unfold Proc.ProcTest_Pull, Proc.TestSource_Pull.
  cbn [Proc.eos Proc.compiledProc Proc.records Proc.idx].
  rewrite length_map, Nat.leb_refl. reflexivity.
Qed.

Lemma testPull_from (batches : list Batch) (n i : nat) :
  (i <= length batches)%nat ->
  fst (Proc.pulls Batch testPull n
         (Proc.MkProcTest Source (Proc.MkTestSource Batch (map Some batches) i) false))
  = map (Proc.expected Batch batches) (seq i n).
Proof.
  revert i. induction n as [| n IH]; intros i Hi; cbn [Proc.pulls seq map];
    [reflexivity |].
  unfold Proc.expected at 1.
  destruct (batches !! i) as [b |] eqn:Hb.
  - pose proof (lookup_lt_Some _ _ _ Hb) as Hlt.
    rewrite (testPull_step _ _ _ Hb). specialize (IH (S i) ltac:(lia)).
    destruct (Proc.pulls Batch testPull n _) as [bs t].
    cbn [fst] in IH. subst bs. cbn [fst].
    rewrite (proj2 (Nat.ltb_lt i (length batches))) by lia. reflexivity.
  - apply lookup_ge_None in Hb. assert (i = length batches) as -> by lia.
    rewrite testPull_last, (anyPull_eos _ _ _ n) by reflexivity. cbn [fst].
    rewrite Nat.ltb_irrefl, Nat.eqb_refl.
    rewrite expected_past by lia. reflexivity.
Qed.

(** X21.  A [ProcTest] set directly on a test source of batches that are
    not nil: its [Pull]s return the batches in order, then once no batch and
    no error, then the error "called Pull() after EOS" for ever. *)
Theorem ProcTest_on_TestSource (batches : list Batch) (n : nat) :
  fst (Proc.pulls Batch testPull n
         (Proc.NewProcTest Source (Proc.NewTestSource Batch (map Some batches))))
  = map (Proc.expected Batch batches) (seq 0 n).
Proof. apply testPull_from. lia. Qed.

End ProcFacts.

(** ** Instances of the further properties *)

Lemma Elements_cases_witness :
  Iterates (IterOf Samples.letters) [Samples.a; Samples.b] None
  /\ Elements Samples.letters
     = Some ([MkTypedEncoding (Some TypeString) Samples.a;
              MkTypedEncoding (Some TypeString) Samples.b], None).
Proof.
  assert (Hi : Iterates (IterOf Samples.letters) [Samples.a; Samples.b] None)
    by iterates.
  split; [exact Hi |]. exact (Elements_cases _ _ _ Hi).
Defined.

Lemma unset_container_witness :
  let e := MkTypedEncoding (Some (TypeSet 3%positive TypeString)) None in
  isSetOrVector (Typ e) = true /\ Body e = None
  /\ Elements e = Some ([], None)
  /\ ContainerLength e = Some ((-1)%Z, Some ErrLenUnset).
Proof.
  intros e. split; [reflexivity |]. split; [reflexivity |].
  destruct (unset_container e eq_refl eq_refl) as (H1 & _ & _ & H4).
  split; assumption.
Defined.

Lemma Elements_ContainerLength_witness :
  Body Samples.letters = Some Scenario.ab
  /\ Elements Samples.letters
     = Some (typed (Some TypeString) [Samples.a; Samples.b], None)
  /\ ContainerLength Samples.letters = Some (2%Z, None).
Proof.
  split; [reflexivity |]. split; [reflexivity |].
  destruct (Elements_ContainerLength Samples.letters Scenario.ab eq_refl) as [H _].
  exact (H (typed (Some TypeString) [Samples.a; Samples.b]) eq_refl).
Defined.

Lemma VectorIndex_cases_witness :
  Typ Samples.broken = Some (TypeVector 4%positive TypeString)
  /\ (0 <= 1)%Z
  /\ Iterates (IterOf Samples.broken) [Samples.a; Samples.b] (Some ErrTruncated)
  /\ VectorIndex Samples.broken 1
     = Some (MkTypedEncoding (Some TypeString) Samples.b, None).
Proof.
  assert (Hi : Iterates (IterOf Samples.broken) [Samples.a; Samples.b]
                        (Some ErrTruncated)) by iterates.
  split; [reflexivity |]. split; [lia |]. split; [exact Hi |].
  exact (VectorIndex_cases Samples.broken 4%positive TypeString 1%Z _ _
           eq_refl ltac:(lia) Hi).
Defined.

Lemma VectorIndex_Elements_witness :
  isVector (Typ Samples.letters) = true
  /\ Elements Samples.letters
     = Some (typed (Some TypeString) [Samples.a; Samples.b], None)
  /\ VectorIndex Samples.letters 1
     = Some (MkTypedEncoding (Some TypeString) Samples.b, None).
Proof.
  split; [reflexivity |]. split; [reflexivity |].
  exact (VectorIndex_Elements Samples.letters 1%Z _ eq_refl eq_refl).
Defined.

Lemma Contains_cases_witness :
  Iterates (IterOf Samples.broken) [Samples.a; Samples.b] (Some ErrTruncated)
  /\ Contains (fun el => isVector (Typ el)) Samples.broken = Some false.
Proof.
  assert (Hi : Iterates (IterOf Samples.broken) [Samples.a; Samples.b]
                        (Some ErrTruncated)) by iterates.
  split; [exact Hi |].
  exact (Contains_cases (fun el => isVector (Typ el)) Samples.broken _ _ Hi).
Defined.

Lemma fieldRead_apply_cases_witness :
  Iterates (IterOf Scenario.short) [Some (Scenario.text "1")] None
  /\ exists col : Column,
       Scenario.abColumns !! 0%nat = Some col
       /\ fieldRead_apply "a" Scenario.short
          = MkValue (Some (ColType col)) (Some (Scenario.text "1")).
Proof.
  assert (Hi : Iterates (IterOf Scenario.short) [Some (Scenario.text "1")] None)
    by iterates.
  split; [exact Hi |].
  destruct (fieldRead_apply_cases "a" 6%positive Scenario.abColumns
              (SpecGrammar.recordString Scenario.abColumns)
              (Some (AppendPrimitive [] (Some (Scenario.text "1")))) _ _ Hi)
    as (col & Hc & _ & _ & Hr).
  exists col. split; [exact Hc | exact Hr].
Defined.

Lemma apply_typed_by_operand_witness :
  apply (fieldRead "a") Scenario.short
  = Some (MkValue (Some TypeString) (Some (Scenario.text "1")))
  /\ (MkValue (Some TypeString) (Some (Scenario.text "1")) = zero
      \/ exists (p : ptr) (columns : list Column) (key : string) (col : Column),
           Typ Scenario.short = Some (TypeRecord p columns key) /\ col ∈ columns
           /\ Name col = "a"
           /\ Typ (MkValue (Some TypeString) (Some (Scenario.text "1")))
              = Some (ColType col)).
Proof.
  split; [reflexivity |].
  exact (apply_typed_by_operand (fieldRead "a") Scenario.short _ eq_refl).
Defined.

Lemma evaluate_call_witness :
  opOf "RecordFieldRead" "degree" = Some (fieldRead "degree")
  /\ evaluate (Scenario.path "lat" "degree") Scenario.northPole
     = match evaluate (FieldRead "lat") Scenario.northPole with
       | Some (inl e) => inl <$> apply (fieldRead "degree") e
       | Some (inr err) => Some (inr err)
       | None => None
       end.
Proof.
  split; [reflexivity |].
  exact (evaluate_call "RecordFieldRead" "degree" (FieldRead "lat")
           (fieldRead "degree") Scenario.northPole eq_refl).
Defined.

Lemma compile_and_print_witness :
  CompileFieldExpr (Scenario.index "v" "5") = inl (resolver "v" [arrayIndex 5])
  /\ is_Some (FieldExprToString (Scenario.index "v" "5")).
Proof.
  split; [reflexivity |].
  destruct compile_and_print as (_ & H & _).
  exact (H (Scenario.index "v" "5") _ eq_refl).
Defined.

Lemma CompileFieldExprs_cases_witness :
  Forall (fun node => compiles node = true) [FieldRead "a"]
  /\ CompileFieldExpr (FieldCall "Len" (FieldRead "a") EmptyString)
     = inr (Errorf "unknown FieldCall: Len")
  /\ CompileFieldExprs
       (Some ([FieldRead "a"]
              ++ FieldCall "Len" (FieldRead "a") EmptyString :: [FieldRead "b"]))
     = inr (Errorf "unknown FieldCall: Len").
Proof.
  assert (Hg : Forall (fun node => compiles node = true) [FieldRead "a"])
    by (repeat constructor).
  split; [exact Hg |]. split; [reflexivity |].
  destruct CompileFieldExprs_cases as (_ & _ & H).
  exact (H [FieldRead "a"] [FieldRead "b"]
           (FieldCall "Len" (FieldRead "a") EmptyString)
           (Errorf "unknown FieldCall: Len") Hg eq_refl).
Defined.

Lemma registry_grows_witness :
  let r' := snd (addType SpecGrammar.typeString (TypeVector 7%positive TypeInt) registry0) in
  typeMap registry0 !! "int" = Some TypeInt
  /\ typeMap r' !! "int" = Some TypeInt.
Proof.
  intros r'. split; [reflexivity |].
  destruct (registry_grows SpecGrammar.typeString SpecGrammar.recordString
              (SpecGrammar.setBody "") (SpecGrammar.vectorBody "")
              (SpecGrammar.recordBody "")) as (H & _).
  exact (H (TypeVector 7%positive TypeInt) registry0 "int" TypeInt eq_refl).
Defined.

Lemma intern_then_lookup_witness :
  let t := TypeVector 7%positive TypeInt in
  let r' := snd (addType SpecGrammar.typeString t registry0) in
  TrimSpace (SpecGrammar.typeString t) = SpecGrammar.typeString t
  /\ addType SpecGrammar.typeString t registry0 = (t, r')
  /\ SpecGrammar.lookupType (SpecGrammar.typeString t) r' = (inl t, r').
Proof.
  intros t r'. split; [reflexivity |]. split; [reflexivity |].
  destruct (intern_then_lookup SpecGrammar.typeString SpecGrammar.recordString
              (SpecGrammar.setBody (SpecGrammar.typeString t))
              (SpecGrammar.vectorBody (SpecGrammar.typeString t))
              (SpecGrammar.recordBody (SpecGrammar.typeString t))) as (H & _).
  exact (H t t registry0 r' eq_refl eq_refl).
Defined.

Lemma addType_held_handle_witness :
  canonical SpecGrammar.typeString registry0
  /\ held registry0 TypePattern
  /\ addType SpecGrammar.typeString TypePattern registry0 = (TypePattern, registry0).
Proof.
  assert (Hh : held registry0 TypePattern) by (exists "regexp"; reflexivity).
  split; [exact canonical_registry0 |]. split; [exact Hh |].
  exact (addType_held_handle SpecGrammar.typeString TypePattern registry0
           canonical_registry0 Hh).
Defined.

Lemma LookupType_interned_witness :
  let r' := snd (SpecGrammar.lookupType "vector[int]" registry0) in
  SpecGrammar.lookupType "vector[int]" registry0
  = (inl (TypeVector 1%positive TypeInt), r')
  /\ held r' (TypeVector 1%positive TypeInt).
Proof.
  intros r'. split; [reflexivity |].
  exact (LookupType_interned SpecGrammar.typeString
           (SpecGrammar.setBody "vector[int]") (SpecGrammar.vectorBody "vector[int]")
           (SpecGrammar.recordBody "vector[int]") "vector[int]" _ registry0 r' eq_refl).
Defined.

Lemma canonical_kept_witness :
  (forall (p : ptr) (columns : list Column),
      SpecGrammar.typeString (TypeRecord p columns (SpecGrammar.recordString columns))
      = SpecGrammar.recordString columns)
  /\ canonical SpecGrammar.typeString registry0
  /\ canonical SpecGrammar.typeString
       (snd (LookupTypeRecord SpecGrammar.recordString Scenario.abColumns registry0)).
Proof.
  split; [exact typeString_record |]. split; [exact canonical_registry0 |].
  destruct (canonical_kept SpecGrammar.typeString SpecGrammar.recordString
              (SpecGrammar.setBody "") (SpecGrammar.vectorBody "")
              (SpecGrammar.recordBody "") typeString_record registry0
              canonical_registry0) as (_ & _ & H & _).
  exact (H Scenario.abColumns).
Defined.

Lemma white_space_ignored_witness :
  let in_ := " int " in
  snd (parseWord in_) <> EmptyString
  /\ SpecGrammar.lookupType (TrimSpace in_) registry0
     = LookupType SpecGrammar.typeString (SpecGrammar.setBody (TrimSpace in_))
         (SpecGrammar.vectorBody (TrimSpace in_))
         (SpecGrammar.recordBody (TrimSpace in_)) in_ registry0.
Proof.
  intros in_.
  assert (Hw : snd (parseWord in_) <> EmptyString) by (vm_compute; discriminate).
  split; [exact Hw |].
  destruct (white_space_ignored SpecGrammar.typeString
              (SpecGrammar.setBody (TrimSpace in_))
              (SpecGrammar.vectorBody (TrimSpace in_))
              (SpecGrammar.recordBody (TrimSpace in_)) in_ registry0) as (_ & H).
  destruct (H (or_intror Hw)) as [_ HL]. exact HL.
Defined.

Lemma ProcTest_eos_latch_witness :
  let p := Proc.NewProcTest (Proc.TestSource nat) (Proc.NewTestSource nat []) in
  let p' := Proc.MkProcTest (Proc.TestSource nat) (Proc.NewTestSource nat []) true in
  Proc.ProcTest_Pull nat (Proc.TestSource nat) (Proc.TestSource_Pull nat) p
  = ((None, None), p')
  /\ Proc.eos (Proc.TestSource nat) p' = true
  /\ Proc.ExpectEOS nat (Proc.TestSource nat) (Proc.TestSource_Pull nat) p'
     = (Some Proc.afterEOS, p').
Proof.
  intros p p'. split; [reflexivity |].
  destruct (ProcTest_eos_latch nat (Proc.TestSource nat) (Proc.TestSource_Pull nat)
              p p' eq_refl) as (H1 & _ & H3 & _).
  split; assumption.
Defined.
